(** * API gateway core: rate limiter, route table, health tracker,
      header transform

    A shallow embedding of
      api-gateway/app/utils/rate_limiting.py   (RateLimiter)
      api-gateway/app/core/middleware.py       (RateLimitingMiddleware)
      api-gateway/app/core/config.py           (Settings.create_service_routes)
      api-gateway/app/api/router.py            (check_service_health,
                                                get_service_url, preserve_headers,
                                                list_routes, service_health_check,
                                                proxy_request)
    and the properties of the design document that concern them, followed
    by further properties of the same code. *)

From Stdlib Require Import ZArith List Bool Ascii String Lia.
From Stdlib Require Import DecimalString DecimalPos DecimalZ.
From stdpp Require Import base gmap strings list fin_maps.

Local Open Scope Z_scope.

(* ===================================================================== *)
(** * Python values shared by the modules *)
(* ===================================================================== *)

(** Exceptions the embedded code raises or lets through. *)
Inductive exn : Type :=
| ValueError (msg : string)
| RedisError (msg : string)
| HttpxError (msg : string)
| ServiceUnavailableError (msg : string)
| OverflowError (msg : string)
| HTTPException (status_code : Z) (detail : string).

(** A computation either returns a value or raises. *)
Inductive result (A : Type) : Type :=
| Ok (a : A)
| Raise (e : exn).
Arguments Ok {A} a.
Arguments Raise {A} e.

(** [str(e)] of an exception. *)
Definition str_exn (e : exn) : string :=
  match e with
  | ValueError m | RedisError m | HttpxError m | ServiceUnavailableError m
  | OverflowError m => m
  | HTTPException _ d => d
  end.

(** [str(n)] and [int(s)] on Python integers.  [int] takes the decimal
    literals that [str] writes; Python also takes blanks around the
    literal, a plus sign and underscores, which no key written by the
    limiter holds. *)
Definition str (z : Z) : string := NilZero.string_of_int (Z.to_int z).

Definition int (s : string) : result Z :=
  match NilZero.int_of_string s with
  | Some d => Ok (Z.of_int d)
  | None => Raise (ValueError ("invalid literal for int() with base 10: " +:+ s))
  end.

(** [a or b] on an optional integer: [None] and [0] are falsy. *)
Definition py_or (a : option Z) (b : Z) : Z :=
  match a with
  | Some x => if x =? 0 then b else x
  | None => b
  end.

(** [s.split(sep)] for a one-character separator. *)
Fixpoint split (sep : ascii) (s : string) : list string :=
  match s with
  | EmptyString => [EmptyString]
  | String c s' =>
      if Ascii.eqb c sep then EmptyString :: split sep s'
      else match split sep s' with
           | [] => [String c EmptyString]
           | p :: ps => String c p :: ps
           end
  end.

(** [sub in s]. *)
Fixpoint contains (sub s : string) : bool :=
  String.prefix sub s ||
  match s with
  | EmptyString => false
  | String _ s' => contains sub s'
  end.

(** ** Insertion-ordered dictionaries

    A Python [dict] keeps its keys in insertion order; assigning to an
    existing key keeps the key's position. *)
Section Dict.
Context {V : Type}.

Definition dict := list (string * V).

Fixpoint dict_get (k : string) (d : dict) : option V :=
  match d with
  | [] => None
  | (k', v) :: d' => if String.eqb k k' then Some v else dict_get k d'
  end.

Definition dict_mem (k : string) (d : dict) : bool :=
  match dict_get k d with Some _ => true | None => false end.

Fixpoint dict_set (k : string) (v : V) (d : dict) : dict :=
  match d with
  | [] => [(k, v)]
  | (k', v') :: d' =>
      if String.eqb k k' then (k', v) :: d' else (k', v') :: dict_set k v d'
  end.

Definition dict_del (k : string) (d : dict) : dict :=
  List.filter (fun kv => negb (String.eqb k (fst kv))) d.

Definition dict_keys (d : dict) : list string := map fst d.
End Dict.
Arguments dict V : clear implicits.

(* ===================================================================== *)
(** * Time *)
(* ===================================================================== *)

(** [time.time()] returns a double.  Between 2^30 and 2^31 seconds after
    the epoch (2004 to 2038) every double is a multiple of 2^-22 s, and on
    these values [now - period], [oldest + period], the comparisons,
    [int(...)] and [now % 60] are exact for the periods a limiter is
    configured with.  A clock reading is therefore an integer number of
    ticks of 2^-22 s.  The integer [period] is converted to a double in
    [now - period]: the conversion is exact up to 2^53 ([float_exact]),
    rounds beyond, which the embedding does not follow, and raises
    [OverflowError] beyond the largest double ([float_overflows]), which it
    does. *)
Definition ticks_per_second : Z := 4194304.

Definition seconds (n : Z) : Z := n * ticks_per_second.

(** [int(t)] of a clock value: truncation toward zero. *)
Definition int_time (t : Z) : Z := Z.quot t ticks_per_second.

(** [now - period] and [oldest + period] convert the integer [period] to a
    double first.  The conversion rounds to nearest, ties to even, and
    raises [OverflowError] when the rounded value is beyond the largest
    double, that is from [2^1024 - 2^970] on. *)
Definition float_overflows (n : Z) : bool := 2 ^ 1024 - 2 ^ 970 <=? Z.abs n.

(** The integers every one of which a double holds exactly; on them the
    conversion changes nothing. *)
Definition float_exact (n : Z) : Prop := Z.abs n <= 2 ^ 53.

(* ===================================================================== *)
(** * utils/rate_limiting.py *)
(* ===================================================================== *)

(** ** In-memory backend *)

(** [self.memory_store]: key ["{client_id}:{period}"] to the list of
    recorded clock readings, oldest first. *)
Record RateLimiter : Type := {
  redis_client : bool;        (* [self.redis_client] is set *)
  default_limit : Z;
  default_period : Z;
  memory_store : dict (list Z)
}.

Definition set_memory_store (self : RateLimiter) (m : dict (list Z)) : RateLimiter :=
  {| redis_client := redis_client self;
     default_limit := default_limit self;
     default_period := default_period self;
     memory_store := m |}.

(** [RateLimiter.__init__]; [from_url_ok] tells whether [redis.from_url]
    returned a client rather than raising. *)
Definition RateLimiter_init (redis_url : option string) (from_url_ok : bool)
    (default_limit default_period : Z) : RateLimiter :=
  {| redis_client :=
       match redis_url with
       | Some (String _ _) => from_url_ok
       | _ => false
       end;
     default_limit := default_limit;
     default_period := default_period;
     memory_store := [] |}.

(** The timestamps stored under a key, [[]] when the key is absent. *)
Definition timestamps_of (key : string) (store : dict (list Z)) : list Z :=
  default [] (dict_get key store).

(** [[ts for ts in l if ts > cutoff]] *)
Definition newer_than (cutoff : Z) (l : list Z) : list Z :=
  List.filter (fun ts => cutoff <? ts) l.

(** The loop of [_clean_memory_store] over the keys of the store. *)
Fixpoint clean_loop (keys : list string) (now : Z) (store : dict (list Z))
    (keys_to_delete : list string) : dict (list Z) * result (list string) :=
  match keys with
  | [] => (store, Ok keys_to_delete)
  | key :: rest =>
      (* _, period = key.split(":") *)
      match split ":" key with
      | [_; period] =>
          match int period with
          | Ok period =>
              if float_overflows period then
                (store, Raise (OverflowError "int too large to convert to float"))
              else
              let cutoff := now - seconds period in
              let kept := newer_than cutoff (timestamps_of key store) in
              let store := dict_set key kept store in
              let keys_to_delete :=
                match kept with
                | [] => keys_to_delete ++ [key]
                | _ => keys_to_delete
                end in
              clean_loop rest now store keys_to_delete
          | Raise e => (store, Raise e)
          end
      | [] | [_] =>
          (store, Raise (ValueError "not enough values to unpack (expected 2, got 1)"))
      | _ =>
          (store, Raise (ValueError "too many values to unpack (expected 2)"))
      end
  end.

(** [RateLimiter._clean_memory_store]; [now] is its own clock reading. *)
Definition _clean_memory_store (self : RateLimiter) (now : Z)
    : RateLimiter * result unit :=
  let store := memory_store self in
  match clean_loop (dict_keys store) now store [] with
  | (store, Ok keys_to_delete) =>
      (set_memory_store self
         (fold_left (fun d key => dict_del key d) keys_to_delete store), Ok tt)
  | (store, Raise e) => (set_memory_store self store, Raise e)
  end.

(** [min(l)] of a non-empty list, [now] for an empty one. *)
Definition oldest_or (now : Z) (l : list Z) : Z :=
  match l with
  | [] => now
  | x :: xs => fold_left Z.min xs x
  end.

(** [now % 60 < 1] *)
Definition sweep_due (now : Z) : bool :=
  now mod seconds 60 <? seconds 1.

(** [RateLimiter._check_memory]; [now] is the reading of [time.time()] at
    its head and [now_sweep] the reading [_clean_memory_store] takes. *)
Definition _check_memory (self : RateLimiter) (client_id : string)
    (limit period : Z) (now now_sweep : Z)
    : RateLimiter * result (bool * Z * Z) :=
  let key := client_id +:+ ":" +:+ str period in
  let store := memory_store self in
  let store := if dict_mem key store then store else dict_set key [] store in
  if float_overflows period then
    (set_memory_store self store,
     Raise (OverflowError "int too large to convert to float"))
  else
  let cutoff := now - seconds period in
  let store := dict_set key (newer_than cutoff (timestamps_of key store)) store in
  let request_count := Z.of_nat (length (timestamps_of key store)) in
  let allowed := request_count <? limit in
  let store :=
    if allowed then dict_set key (timestamps_of key store ++ [now]) store
    else store in
  let remaining := Z.max 0 (limit - Z.of_nat (length (timestamps_of key store))) in
  let reset_time :=
    if 0 <? remaining then int_time now + period
    else int_time (oldest_or now (timestamps_of key store) + seconds period) in
  let self := set_memory_store self store in
  if sweep_due now then
    match _clean_memory_store self now_sweep with
    | (self, Ok _) => (self, Ok (allowed, remaining, reset_time))
    | (self, Raise e) => (self, Raise e)
    end
  else (self, Ok (allowed, remaining, reset_time)).

(** ** External-store backend *)

(** The part of a Redis server the limiter talks to: sorted sets and the
    time-to-live of their keys.  A member of a sorted set is [str(now)] and
    its score is [now], so a sorted set is the ascending list of its scores,
    each at most once.  A key whose sorted set has no member does not
    exist: the server drops it, with its time-to-live, when its last member
    is removed, and [EXPIRE] with a timeout of 0 or less deletes the key at
    once. *)
Record Redis : Type := {
  zsets : gmap string (list Z);
  ttl : gmap string Z
}.

Definition zset_of (key : string) (db : Redis) : list Z :=
  default [] (zsets db !! key).

Fixpoint zset_insert (score : Z) (l : list Z) : list Z :=
  match l with
  | [] => [score]
  | x :: l' =>
      if score <? x then score :: x :: l'
      else if score =? x then x :: l'
      else x :: zset_insert score l'
  end.

Inductive redis_cmd : Type :=
| ZREMRANGEBYSCORE (key : string) (lo hi : Z)
| ZADD (key : string) (score : Z)
| ZCARD (key : string)
| EXPIRE (key : string) (secs : Z).

(** One command on the server, with its integer reply. *)
Definition redis_apply (c : redis_cmd) (db : Redis) : Redis * Z :=
  match c with
  | ZREMRANGEBYSCORE key lo hi =>
      let old := zset_of key db in
      let kept := List.filter (fun s => negb ((lo <=? s) && (s <=? hi))) old in
      (match kept with
       | [] => {| zsets := delete key (zsets db); ttl := delete key (ttl db) |}
       | _ :: _ => {| zsets := <[key := kept]> (zsets db); ttl := ttl db |}
       end,
       Z.of_nat (length old) - Z.of_nat (length kept))
  | ZADD key score =>
      let old := zset_of key db in
      let new := zset_insert score old in
      ({| zsets := <[key := new]> (zsets db); ttl := ttl db |},
       Z.of_nat (length new) - Z.of_nat (length old))
  | ZCARD key => (db, Z.of_nat (length (zset_of key db)))
  | EXPIRE key secs =>
      match zset_of key db with
      | [] => (db, 0)
      | _ :: _ =>
          if secs <=? 0
          then ({| zsets := delete key (zsets db); ttl := delete key (ttl db) |}, 1)
          else ({| zsets := zsets db; ttl := <[key := secs]> (ttl db) |}, 1)
      end
  end.

(** [pipe.execute()]: the queued commands run in order as one unit. *)
Fixpoint redis_execute (cmds : list redis_cmd) (db : Redis) : Redis * list Z :=
  match cmds with
  | [] => (db, [])
  | c :: cmds' =>
      let '(db, r) := redis_apply c db in
      let '(db, rs) := redis_execute cmds' db in
      (db, r :: rs)
  end.

(** Where the client library raises, if it does. *)
Inductive redis_fault : Type :=
| NoFault
| FailPipeline                 (* [self.redis_client.pipeline()] *)
| FailQueue (i : nat)          (* queueing the i-th command, i = 0..3 *)
| FailExecuteUnsent            (* [pipe.execute()], nothing reached the server *)
| FailExecuteReplyLost         (* [pipe.execute()], the server ran the commands *)
| FailZrange.                  (* [self.redis_client.zrange(...)] *)

Definition queue_fails (f : redis_fault) (n : nat) : bool :=
  match f with
  | FailQueue i => (i <? n)%nat
  | _ => false
  end.

(** The [try] block of [RateLimiter._check_redis]. *)
Definition _check_redis_try (db : Redis) (fault : redis_fault)
    (client_id : string) (limit period : Z) (now : Z)
    : Redis * result (bool * Z * Z) :=
  let key := "rate_limit:" +:+ client_id +:+ ":" +:+ str period in
  match fault with
  | FailPipeline => (db, Raise (RedisError "pipeline"))
  | _ =>
    if float_overflows period then
      (db, Raise (OverflowError "int too large to convert to float"))
    else
    let cutoff := now - seconds period in
    let pipe := [ZREMRANGEBYSCORE key 0 cutoff; ZADD key now; ZCARD key;
                 EXPIRE key period] in
    if queue_fails fault (length pipe) then (db, Raise (RedisError "queue"))
    else
    match fault with
    | FailExecuteUnsent => (db, Raise (RedisError "execute"))
    | _ =>
      let '(db, results) := redis_execute pipe db in
      match fault with
      | FailExecuteReplyLost => (db, Raise (RedisError "execute"))
      | _ =>
        match results !! 2%nat with
        | None => (db, Raise (ValueError "list index out of range"))
        | Some request_count =>
            let allowed := request_count <=? limit in
            let remaining := Z.max 0 (limit - request_count) in
            if 0 <? remaining then
              (db, Ok (allowed, remaining, int_time now + period))
            else
              match fault with
              | FailZrange => (db, Raise (RedisError "zrange"))
              | _ =>
                let reset_time :=
                  match zset_of key db with
                  | oldest :: _ => int_time oldest + period
                  | [] => int_time now + period
                  end in
                (db, Ok (allowed, remaining, reset_time))
              end
        end
      end
    end
  end.

(** [RateLimiter._check_redis]: the [try] block under its
    [except Exception] handler, which reads the clock again ([now_exc]). *)
Definition _check_redis (db : Redis) (fault : redis_fault)
    (client_id : string) (limit period : Z) (now now_exc : Z)
    : Redis * result (bool * Z * Z) :=
  match _check_redis_try db fault client_id limit period now with
  | (db, Ok r) => (db, Ok r)
  | (db, Raise e) => (db, Ok (true, limit, int_time now_exc + period))
  end.

(** [RateLimiter.check]; [limit] and [period] are [None] when omitted.
    [now2] is the second clock reading of the chosen backend. *)
Definition check (self : RateLimiter) (db : Redis) (fault : redis_fault)
    (client_id : string) (limit period : option Z) (now now2 : Z)
    : RateLimiter * Redis * result (bool * Z * Z) :=
  let limit := py_or limit (default_limit self) in
  let period := py_or period (default_period self) in
  if redis_client self then
    let '(db, r) := _check_redis db fault client_id limit period now now2 in
    (self, db, r)
  else
    let '(self, r) := _check_memory self client_id limit period now now2 in
    (self, db, r).

(* ===================================================================== *)
(** * core/config.py *)
(* ===================================================================== *)

(** A route's [service_info]: a dictionary whose values are strings, or
    Python's [None] where [values.get] found nothing. *)
Definition service_info := dict (option string).

Record Settings : Type := {
  ENABLE_RATE_LIMITING : bool;
  RATE_LIMIT_REDIS_URL : option string;
  DEFAULT_RATE_LIMIT : Z;
  DEFAULT_RATE_LIMIT_PERIOD : Z;
  PROXY_SECRET_KEY : string;
  SERVICE_ROUTES : dict service_info
}.

(** [d.get(k)] on a [service_info]: a missing key and a [None] value both
    give [None]. *)
Definition info_get (k : string) (info : service_info) : option string :=
  match dict_get k info with
  | Some (Some v) => Some v
  | _ => None
  end.

(** Truthiness of an optional string: [None] and [""] are falsy. *)
Definition truthy (s : option string) : bool :=
  match s with
  | Some (String _ _) => true
  | _ => false
  end.

(** [Settings.create_service_routes]: the [mode="before"] validator of
    [SERVICE_ROUTES].  [v] is the configured value and [values] the fields
    validated so far ([info.data]). *)
Definition create_service_routes (v : option (dict service_info))
    (values : gmap string string) : dict service_info :=
  match v with
  | Some ((_ :: _) as routes) => routes
  | _ =>
      let is_dev :=
        match values !! "ENV" with
        | Some env => String.eqb env "development"
        | None => false
        end in
      let route (dev prod : string) : service_info :=
        [("url", values !! (if is_dev then dev else prod));
         ("health", Some "/health")] in
      [("/auth", route "DEV_AUTH_SERVICE_URL" "AUTH_SERVICE_URL");
       ("/reports", route "DEV_REPORTS_SERVICE_URL" "REPORTS_SERVICE_URL");
       ("/alerts", route "DEV_ALERTS_SERVICE_URL" "ALERTS_SERVICE_URL");
       ("/map", route "DEV_MAP_SERVICE_URL" "MAP_SERVICE_URL");
       ("/ai", route "DEV_AI_SERVICE_URL" "AI_SERVICE_URL");
       ("/audit", route "DEV_AUDIT_SERVICE_URL" "AUDIT_SERVICE_URL")]
  end.

(** The value a [mode="before"] validator returns is then checked against
    the field's annotation, [Dict[str, Dict[str, str]]]: every value of
    every route must be a string. *)
Definition well_typed_routes (routes : dict service_info) : bool :=
  forallb (fun r => forallb (fun kv => match snd kv with Some _ => true | None => false end)
                            (snd r)) routes.

(** Loading [SERVICE_ROUTES] at start-up: the validator, then the type
    check. *)
Definition load_service_routes (v : option (dict service_info))
    (values : gmap string string) : result (dict service_info) :=
  let routes := create_service_routes v values in
  if well_typed_routes routes then Ok routes
  else Raise (ValueError "SERVICE_ROUTES: Input should be a valid string").

(** A route has a backend URL when its ["url"] entry is a non-empty string. *)
Definition has_backend_url (info : service_info) : bool :=
  truthy (info_get "url" info).

(* ===================================================================== *)
(** * core/middleware.py *)
(* ===================================================================== *)

(** [request.headers] with lower-cased names, and [request.client.host]
    when [request.client] is set. *)
Record Request : Type := {
  headers : gmap string string;
  client : option string
}.

Record Response : Type := {
  status_code : Z;
  response_headers : dict string;
  content : string
}.

(** [response.headers[k] = v] *)
Definition set_header (k v : string) (r : Response) : Response :=
  {| status_code := status_code r;
     response_headers := dict_set k v (response_headers r);
     content := content r |}.

(** [request.client.host if request.client else "unknown"] *)
Definition client_host (request : Request) : string :=
  match client request with
  | Some host => host
  | None => "unknown"
  end.

(** [RateLimitingMiddleware._get_client_id] *)
Definition _get_client_id (request : Request) : string :=
  match headers request !! "authorization" with
  | Some auth_header =>
      if truthy (Some auth_header) && String.prefix "Bearer " auth_header
      then auth_header
      else client_host request
  | None => client_host request
  end.

(** [RateLimitingMiddleware.__init__] *)
Definition middleware_limiter (settings : Settings) (from_url_ok : bool) : RateLimiter :=
  RateLimiter_init (RATE_LIMIT_REDIS_URL settings) from_url_ok
    (DEFAULT_RATE_LIMIT settings) (DEFAULT_RATE_LIMIT_PERIOD settings).

(** [RateLimitingMiddleware.dispatch]; [call_next] is the rest of the
    application. *)
Definition dispatch (settings : Settings) (limiter : RateLimiter) (db : Redis)
    (fault : redis_fault) (request : Request) (call_next : Request -> Response)
    (now now2 : Z) : RateLimiter * Redis * result Response :=
  if negb (ENABLE_RATE_LIMITING settings) then
    (limiter, db, Ok (call_next request))
  else
    let client_id := _get_client_id request in
    match check limiter db fault client_id None None now now2 with
    | (limiter, db, Raise e) => (limiter, db, Raise e)
    | (limiter, db, Ok (allowed, remaining, reset_time)) =>
        if negb allowed then
          (limiter, db,
           Ok {| status_code := 429;
                 response_headers :=
                   [("X-RateLimit-Remaining", str remaining);
                    ("X-RateLimit-Reset", str reset_time)];
                 content := "Rate limit exceeded. Please try again later." |})
        else
          let response := call_next request in
          let response := set_header "X-RateLimit-Remaining" (str remaining) response in
          let response := set_header "X-RateLimit-Reset" (str reset_time) response in
          (limiter, db, Ok response)
    end.

(* ===================================================================== *)
(** * api/router.py *)
(* ===================================================================== *)

(** An entry of [service_health]; [error] is [None] when the entry has no
    ["error"] key. *)
Record HealthStatus : Type := {
  is_healthy : bool;
  last_checked : Z;
  error : option string
}.

(** [service_info.get("health", "/health")] inside an f-string. *)
Definition health_endpoint_of (info : service_info) : string :=
  match dict_get "health" info with
  | None => "/health"
  | Some (Some h) => h
  | Some None => "None"
  end.

(** [check_service_health].  [http_get url] is the outcome of
    [client.get(url)] under the 5 s timeout: the response's status code, or
    the exception raised (timeout, connection error, ...). *)
Definition check_service_health (routes : dict service_info)
    (service_health : gmap string HealthStatus) (service_path : string)
    (http_get : string -> result Z) (now : Z)
    : gmap string HealthStatus * result bool :=
  match dict_get service_path routes with
  | None | Some [] => (service_health, Ok false)
  | Some service_info =>
      let service_url := info_get "url" service_info in
      let health_endpoint := health_endpoint_of service_info in
      match service_url with
      | Some (String _ _ as service_url) =>
          (* try: *)
          let url := service_url +:+ health_endpoint in
          match http_get url with
          | Ok status =>
              let healthy := status =? 200 in
              (<[service_path := {| is_healthy := healthy;
                                    last_checked := now;
                                    error := None |}]> service_health,
               Ok healthy)
          | Raise e =>
              (* except Exception as e: *)
              (<[service_path := {| is_healthy := false;
                                    last_checked := now;
                                    error := Some (str_exn e) |}]> service_health,
               Ok false)
          end
      | _ => (service_health, Ok false)
      end
  end.

(** [normalized_path] of [get_service_url]. *)
Definition normalize_path (path : string) : string :=
  if String.prefix "/" path then path else "/" +:+ path.

(** The loop of [get_service_url] over [settings.SERVICE_ROUTES.items()].
    Beside the outcome it gives the prefixes for which a health check was
    handed to [asyncio.create_task]. *)
Fixpoint get_service_url_loop (items : dict service_info)
    (service_health : gmap string HealthStatus)
    (normalized_path path : string) (now : Z) : result string * list string :=
  match items with
  | [] =>
      (Raise (HTTPException 404 ("No service configured for path: " +:+ path)), [])
  | (route_prefix, service_info) :: rest =>
      if String.prefix route_prefix normalized_path then
        match info_get "url" service_info with
        | Some (String _ _ as service_url) =>
            let service_status := service_health !! route_prefix in
            let checked :=
              match service_status with Some s => last_checked s | None => 0 end in
            let healthy :=
              match service_status with Some s => is_healthy s | None => true end in
            if (seconds 60 <? now - checked) || negb healthy
            then (Ok service_url, [route_prefix])
            else (Ok service_url, [])
        | _ =>
            (Raise (ServiceUnavailableError
                      ("Service configuration for " +:+ route_prefix +:+ " is missing")),
             [])
        end
      else get_service_url_loop rest service_health normalized_path path now
  end.

(** [get_service_url] *)
Definition get_service_url (routes : dict service_info)
    (service_health : gmap string HealthStatus) (path : string) (now : Z)
    : result string * list string :=
  get_service_url_loop routes service_health (normalize_path path) path now.

(** [preserve_headers] *)
Definition preserve_headers (settings : Settings) (request : Request)
    : gmap string string :=
  let hs := headers request in
  let hs := delete "host" hs in
  let hs := delete "connection" hs in
  let hs := delete "content-length" hs in
  let hs :=
    match hs !! "x-forwarded-for" with
    | Some forwarded =>
        <["x-forwarded-for" := forwarded +:+ ", " +:+ client_host request]> hs
    | None => <["x-forwarded-for" := client_host request]> hs
    end in
  <["x-gateway-secret" := PROXY_SECRET_KEY settings]> hs.

(** An entry of the ["services"] object of [GET /services/health]. *)
Record HealthReport : Type := {
  report_url : option string;
  report_is_healthy : bool;
  report_last_checked : Z;
  report_error : option string
}.

(** [asyncio.gather] over one [check_service_health] per route. *)
Fixpoint gather_health_checks (routes : dict service_info) (paths : list string)
    (service_health : gmap string HealthStatus)
    (http_get : string -> result Z) (now : Z)
    : gmap string HealthStatus * result (list bool) :=
  match paths with
  | [] => (service_health, Ok [])
  | service_path :: rest =>
      match check_service_health routes service_health service_path http_get now with
      | (service_health, Raise e) => (service_health, Raise e)
      | (service_health, Ok r) =>
          match gather_health_checks routes rest service_health http_get now with
          | (service_health, Raise e) => (service_health, Raise e)
          | (service_health, Ok rs) => (service_health, Ok (r :: rs))
          end
      end
  end.

(** The value stored in [health_results[service_path]]. *)
Definition report_of (service_health : gmap string HealthStatus) (now : Z)
    (service_path : string) (service_info : service_info) (r : bool) : HealthReport :=
  {| report_url := info_get "url" service_info;
     report_is_healthy := r;
     report_last_checked :=
       match service_health !! service_path with
       | Some s => last_checked s
       | None => now
       end;
     report_error :=
       match service_health !! service_path with
       | Some s => error s
       | None => None
       end |}.

(** The response loop of [service_health_check]. *)
Definition health_results (items : list (string * service_info * bool))
    (service_health : gmap string HealthStatus) (now : Z) : dict HealthReport :=
  fold_left
    (fun acc item =>
       let '(service_path, service_info, r) := item in
       dict_set service_path (report_of service_health now service_path service_info r) acc)
    items [].

(** [service_health_check], the handler of [GET /services/health]. *)
Definition service_health_check (routes : dict service_info)
    (service_health : gmap string HealthStatus)
    (http_get : string -> result Z) (now now_report : Z)
    : gmap string HealthStatus * result (dict HealthReport) :=
  match gather_health_checks routes (dict_keys routes) service_health http_get now with
  | (service_health, Raise e) => (service_health, Raise e)
  | (service_health, Ok results) =>
      (service_health,
       Ok (health_results (combine routes results) service_health now_report))
  end.

(* ===================================================================== *)
(** * Runs of the limiter *)
(* ===================================================================== *)

(** One call of [RateLimiter.check] on the in-memory backend, with the two
    clock readings it may take. *)
Record Call : Type := {
  call_client : string;
  call_limit : option Z;
  call_period : option Z;
  call_now : Z;
  call_now_sweep : Z
}.

(** Sequential calls on one limiter, with the outcome of each. *)
Fixpoint run_calls (self : RateLimiter) (calls : list Call)
    : RateLimiter * list (Call * result (bool * Z * Z)) :=
  match calls with
  | [] => (self, [])
  | c :: rest =>
      let '(self, r) :=
        _check_memory self (call_client c)
          (py_or (call_limit c) (default_limit self))
          (py_or (call_period c) (default_period self))
          (call_now c) (call_now_sweep c) in
      let '(self, rs) := run_calls self rest in
      (self, (c, r) :: rs)
  end.

(** The clock never runs backwards over a run. *)
Fixpoint clock_monotone (t : Z) (calls : list Call) : Prop :=
  match calls with
  | [] => True
  | c :: rest =>
      t <= call_now c /\ call_now c <= call_now_sweep c /\
      clock_monotone (call_now_sweep c) rest
  end.

(** The calls of a run that were accepted for [(client_id, period)]: the
    clock readings of those that returned [allowed = True]. *)
Fixpoint accepted (self : RateLimiter) (client_id : string) (period : Z)
    (outcomes : list (Call * result (bool * Z * Z))) : list Z :=
  match outcomes with
  | [] => []
  | (c, r) :: rest =>
      let tail := accepted self client_id period rest in
      if String.eqb (call_client c) client_id
         && (py_or (call_period c) (default_period self) =? period)
      then match r with
           | Ok (true, _, _) => call_now c :: tail
           | _ => tail
           end
      else tail
  end.

(** The readings of [l] in the window [(t - period, t]]. *)
Definition in_window (period t : Z) (l : list Z) : list Z :=
  List.filter (fun ts => (t - seconds period <? ts) && (ts <=? t)) l.

(** Three requests through the middleware, as [(now, now2)] pairs. *)
Definition three_requests (settings : Settings) (request : Request)
    (call_next : Request -> Response) (t1 t1' t2 t2' t3 t3' : Z)
    : result Response * result Response * result Response :=
  let limiter := middleware_limiter settings true in
  let db := {| zsets := ∅; ttl := ∅ |} in
  let '(limiter, db, r1) := dispatch settings limiter db NoFault request call_next t1 t1' in
  let '(limiter, db, r2) := dispatch settings limiter db NoFault request call_next t2 t2' in
  let '(limiter, db, r3) := dispatch settings limiter db NoFault request call_next t3 t3' in
  (r1, r2, r3).

(** A string without [":"]. *)
Definition colon_free (s : string) : Prop := contains ":" s = false.

(* ===================================================================== *)
(** * Notions used by the statements *)
(* ===================================================================== *)

(** No route before the first match is a prefix of the normalized path. *)
Definition no_match (normalized_path : string) (items : dict service_info) : Prop :=
  Forall (fun r => String.prefix (fst r) normalized_path = false) items.

(** A route that [check_service_health] probes: it is configured, with a
    non-empty backend URL. *)
Definition probed_url (routes : dict service_info) (service_path : string)
    : option string :=
  match dict_get service_path routes with
  | Some ((_ :: _) as service_info) =>
      match info_get "url" service_info with
      | Some (String _ _ as service_url) =>
          Some (service_url +:+ health_endpoint_of service_info)
      | _ => None
      end
  | _ => None
  end.

(** The entry a probe leaves in [service_health]. *)
Definition probe_entry (outcome : result Z) (now : Z) : HealthStatus :=
  match outcome with
  | Ok status => {| is_healthy := status =? 200; last_checked := now; error := None |}
  | Raise e => {| is_healthy := false; last_checked := now; error := Some (str_exn e) |}
  end.

(** The health map after the probes of [paths], in order. *)
Definition record_probes (routes : dict service_info)
    (http_get : string -> result Z) (now : Z) (paths : list string)
    (service_health : gmap string HealthStatus) : gmap string HealthStatus :=
  fold_left
    (fun h p => match probed_url routes p with
                | Some url => <[p := probe_entry (http_get url) now]> h
                | None => h
                end) paths service_health.

(** What [_, period = key.split(":")], [int(period)] and the conversion
    of [period] in [now - period] give on a key. *)
Definition key_period (key : string) : result Z :=
  match split ":" key with
  | [_; period] =>
      match int period with
      | Ok period =>
          if float_overflows period
          then Raise (OverflowError "int too large to convert to float")
          else Ok period
      | Raise e => Raise e
      end
  | [] | [_] => Raise (ValueError "not enough values to unpack (expected 2, got 1)")
  | _ => Raise (ValueError "too many values to unpack (expected 2)")
  end.

(** [sep.join(l)] *)
Fixpoint join (sep : ascii) (l : list string) : string :=
  match l with
  | [] => EmptyString
  | p :: ps =>
      match ps with
      | [] => p
      | _ => p +:+ String sep (join sep ps)
      end
  end.

(** What holds between the stored timestamps of the key of
    [(client_id, T)], the accepted readings [adm] and the last clock
    reading [t]: the accepted readings are not in the future; beyond every
    cutoff that can still be used, the store holds at least as many
    readings as were accepted; and no window holds more than [L] accepted
    readings. *)
Definition window_invariant (client_id : string) (T L : Z)
    (store : dict (list Z)) (adm : list Z) (t : Z) : Prop :=
  Forall (fun x => x <= t) adm /\
  (forall cutoff, t - seconds T <= cutoff ->
     (length (newer_than cutoff adm) <=
      length (newer_than cutoff (timestamps_of (client_id +:+ ":" +:+ str T) store)))%nat) /\
  (forall t', Z.of_nat (length (in_window T t' adm)) <= L).

(** Every key of the store splits into a client and a period. *)
Definition keys_parse (store : dict (list Z)) : Prop :=
  forall k, In k (dict_keys store) -> exists p, key_period k = Ok p.

(** The scores a [ZREMRANGEBYSCORE key 0 cutoff] leaves. *)
Definition zset_trim (cutoff : Z) (l : list Z) : list Z :=
  List.filter (fun s => negb ((0 <=? s) && (s <=? cutoff))) l.

(** The response of the middleware to a request that is over the limit. *)
Definition too_many_requests (remaining reset_time : Z) : Response :=
  {| status_code := 429;
     response_headers :=
       [("X-RateLimit-Remaining", str remaining); ("X-RateLimit-Reset", str reset_time)];
     content := "Rate limit exceeded. Please try again later." |}.

(** The response of the application with the two rate-limit headers. *)
Definition with_rate_headers (remaining reset_time : Z) (response : Response) : Response :=
  set_header "X-RateLimit-Reset" (str reset_time)
    (set_header "X-RateLimit-Remaining" (str remaining) response).

(* ===================================================================== *)
(** * api/router.py: the proxy and the internal endpoints *)
(* ===================================================================== *)

(** [INTERNAL_ROUTES]: exact paths served by the gateway itself, with the
    name of their handler. *)
Definition INTERNAL_ROUTES : dict string :=
  [("/health", "health_check");
   ("/routes", "list_routes");
   ("/services/health", "service_health_check")].

(** The handlers those names are bound to in the module. *)
Inductive handler : Type :=
| health_check_handler
| list_routes_handler
| service_health_check_handler.

(** [globals().get(handler_name)] for the names of [INTERNAL_ROUTES]. *)
Definition globals_get (handler_name : string) : option handler :=
  if String.eqb handler_name "health_check" then Some health_check_handler
  else if String.eqb handler_name "list_routes" then Some list_routes_handler
  else if String.eqb handler_name "service_health_check"
       then Some service_health_check_handler
  else None.

(** An entry of the ["routes"] list of [GET /routes]. *)
Record RouteListing : Type := {
  listing_prefix : string;
  listing_service_url : option string;
  listing_health_endpoint : option string
}.

(** What a handler of the router returns: the JSON object of an internal
    endpoint, or a [Response]. *)
Inductive payload : Type :=
| GatewayHealth
    (* {"status": "healthy", "service": "api-gateway", "version": "1.0.0"} *)
| RouteList (routes : list RouteListing) (internal_routes : list string)
| ServicesHealth (services : dict HealthReport)
    (* {"gateway_status": "healthy", "services": ...} *)
| HttpResponse (r : Response).

(** [list_routes] *)
Definition list_routes (routes : dict service_info) : payload :=
  RouteList
    (map (fun r : string * service_info =>
            {| listing_prefix := fst r;
               listing_service_url := info_get "url" (snd r);
               listing_health_endpoint :=
                 match dict_get "health" (snd r) with
                 | None => Some "/health"
                 | Some v => v
                 end |}) routes)
    (dict_keys INTERNAL_ROUTES).

(** The request as [proxy_request] reads it: [request.method], the body
    ([None] when [await request.body()] raises) and the query string. *)
Record Inbound : Type := {
  inbound_request : Request;
  inbound_method : string;
  inbound_body : option string;
  inbound_query : string
}.

(** The outcome of [client.request(...)] towards the backend: a response,
    or the class of the exception raised. *)
Inductive outbound : Type :=
| BackendResponse (r : Response)
| TimeoutException (msg : string)      (* httpx.TimeoutException *)
| RequestError (msg : string)          (* any other httpx.RequestError *)
| OtherException (msg : string).       (* any other Exception *)

(** A plain-text error response of the proxy. *)
Definition text_response (status : Z) (body : string) : Response :=
  {| status_code := status;
     response_headers := [("Content-Type", "text/plain")];
     content := body |}.

(** The health checks that route resolution handed to
    [asyncio.create_task] run while the proxy awaits the request body and
    the backend.  [background] is [Some t] when they wrote their result, at
    the clock reading [t], before the proxy returned, and [None] when they
    had not yet done so. *)
Definition run_background (routes : dict service_info)
    (service_health : gmap string HealthStatus) (tasks : list string)
    (http_get : string -> result Z) (background : option Z)
    : gmap string HealthStatus :=
  match background with
  | Some t =>
      fold_left
        (fun service_health service_path =>
           fst (check_service_health routes service_health service_path http_get t))
        tasks service_health
  | None => service_health
  end.

(** [proxy_request].  [send method url headers content params] is the
    outbound call and [http_get] the probe of the health checks.  Beside
    the result it gives the health map as it is when the proxy returns and
    the health checks handed to [asyncio.create_task]. *)
Definition proxy_request (settings : Settings)
    (service_health : gmap string HealthStatus) (inbound : Inbound) (path : string)
    (http_get : string -> result Z)
    (send : string -> string -> gmap string string -> string -> string -> outbound)
    (now now_report : Z) (background : option Z)
    : gmap string HealthStatus * list string * result payload :=
  let routes := SERVICE_ROUTES settings in
  let full_path := if String.prefix "/" path then path else "/" +:+ path in
  match dict_get full_path INTERNAL_ROUTES with
  | Some handler_name =>
      match globals_get handler_name with
      | Some health_check_handler => (service_health, [], Ok GatewayHealth)
      | Some list_routes_handler => (service_health, [], Ok (list_routes routes))
      | Some service_health_check_handler =>
          match service_health_check routes service_health http_get now now_report with
          | (service_health, Ok reports) => (service_health, [], Ok (ServicesHealth reports))
          | (service_health, Raise e) => (service_health, [], Raise e)
          end
      | None =>
          (service_health, [],
           Ok (HttpResponse {| status_code := 500;
                               response_headers := [];
                               content := "Internal server error" |}))
      end
  | None =>
      (* try: *)
      match get_service_url routes service_health path now with
      | (Ok service_url, tasks) =>
          let target_url := service_url +:+ "/" +:+ path in
          let headers := preserve_headers settings (inbound_request inbound) in
          match inbound_body inbound with
          | Some body =>
              match send (inbound_method inbound) target_url headers body
                      (inbound_query inbound) with
              | BackendResponse response =>
                  (run_background routes service_health tasks http_get background, tasks,
                   Ok (HttpResponse {| status_code := status_code response;
                                       response_headers := response_headers response;
                                       content := content response |}))
              | TimeoutException _ =>
                  (run_background routes service_health tasks http_get background, tasks,
                   Ok (HttpResponse
                         (text_response 504 "Service timeout. Please try again later.")))
              | RequestError msg =>
                  (run_background routes service_health tasks http_get background, tasks,
                   Ok (HttpResponse
                         (text_response 502 ("Unable to reach the service: " +:+ msg))))
              | OtherException _ =>
                  (run_background routes service_health tasks http_get background, tasks,
                   Ok (HttpResponse
                         (text_response 500
                            "An internal error occurred while processing your request.")))
              end
          | None =>
              (run_background routes service_health tasks http_get background, tasks,
               Ok (HttpResponse
                     (text_response 500
                        "An internal error occurred while processing your request.")))
          end
      | (Raise (ServiceUnavailableError msg), tasks) =>
          (* except ServiceUnavailableError as e: *)
          (run_background routes service_health tasks http_get background, tasks,
           Ok (HttpResponse (text_response 503 msg)))
      | (Raise _, tasks) =>
          (* except Exception as e: *)
          (run_background routes service_health tasks http_get background, tasks,
           Ok (HttpResponse
                 (text_response 500
                    "An internal error occurred while processing your request.")))
      end
  end.

(* ===================================================================== *)
(** * Lemmas on dictionaries *)
(* ===================================================================== *)

Section DictFacts.
Context {V : Type}.
Implicit Types (d : dict V) (k : string) (v : V).

Lemma dict_get_set_eq k v d : dict_get k (dict_set k v d) = Some v.
Proof.
  induction d as [|[k' v'] d IH]; simpl.
  - by rewrite String.eqb_refl.
  - destruct (String.eqb k k') eqn:E; simpl; rewrite E; [done | apply IH].
Qed.

Lemma dict_get_set_ne k k' v d :
  k <> k' -> dict_get k' (dict_set k v d) = dict_get k' d.
Proof.
  intros Hne. induction d as [|[k0 v0] d IH]; simpl.
  - destruct (String.eqb k' k) eqn:E; [|done].
    apply String.eqb_eq in E. congruence.
  - destruct (String.eqb k k0) eqn:E; simpl.
    + apply String.eqb_eq in E. subst k0.
      destruct (String.eqb k' k) eqn:E'; [|done].
      apply String.eqb_eq in E'. congruence.
    + by rewrite IH.
Qed.

Lemma dict_get_del_eq k d : dict_get k (dict_del k d) = None.
Proof.
  induction d as [|[k' v'] d IH]; simpl; [done|].
  destruct (String.eqb k k') eqn:E; simpl; [apply IH|].
  by rewrite E.
Qed.

Lemma dict_get_del_ne k k' d :
  k <> k' -> dict_get k' (dict_del k d) = dict_get k' d.
Proof.
  intros Hne. induction d as [|[k0 v0] d IH]; simpl; [done|].
  destruct (String.eqb k k0) eqn:E; simpl.
  - apply String.eqb_eq in E. subst k0.
    destruct (String.eqb k' k) eqn:E'; [|done].
    apply String.eqb_eq in E'. congruence.
  - by rewrite IH.
Qed.

Lemma dict_get_In k v d : dict_get k d = Some v -> In k (dict_keys d).
Proof.
  induction d as [|[k' v'] d IH]; simpl; [done|].
  destruct (String.eqb k k') eqn:E.
  - apply String.eqb_eq in E. auto.
  - auto.
Qed.

Lemma dict_keys_set_in k v d :
  dict_mem k d = true -> dict_keys (dict_set k v d) = dict_keys d.
Proof.
  unfold dict_mem. induction d as [|[k' v'] d IH]; simpl; [done|].
  destruct (String.eqb k k') eqn:E; simpl; [done|].
  intros H. by rewrite IH.
Qed.

Lemma dict_keys_set_new k v d :
  dict_mem k d = false -> dict_keys (dict_set k v d) = dict_keys d ++ [k].
Proof.
  unfold dict_mem. induction d as [|[k' v'] d IH]; simpl; [done|].
  destruct (String.eqb k k') eqn:E; simpl; [done|].
  intros H. by rewrite IH.
Qed.
Lemma dict_keys_set k k' v d :
  In k' (dict_keys (dict_set k v d)) <-> k' = k \/ In k' (dict_keys d).
Proof.
  induction d as [|[k0 v0] d IH]; simpl.
  - split; [intros [<-|[]]; by left | intros [->|[]]; by left].
  - destruct (String.eqb k k0) eqn:E; simpl.
    + apply String.eqb_eq in E as ->. split; [by right|].
      intros [->|H]; [by left | done].
    + rewrite IH. split; [intros [H|[H|H]] | intros [H|[H|H]]]; auto.
Qed.

Lemma dict_keys_del k k' d :
  In k' (dict_keys (dict_del k d)) -> In k' (dict_keys d).
Proof.
  unfold dict_keys, dict_del. intros H. apply in_map_iff in H as (kv & <- & H).
  apply List.filter_In in H as [H _]. by apply in_map.
Qed.
End DictFacts.

Lemma timestamps_of_set_eq key l store :
  timestamps_of key (dict_set key l store) = l.
Proof. unfold timestamps_of. by rewrite dict_get_set_eq. Qed.

Lemma timestamps_of_set_ne key key' l store :
  key <> key' -> timestamps_of key' (dict_set key l store) = timestamps_of key' store.
Proof. intros H. unfold timestamps_of. by rewrite dict_get_set_ne. Qed.

Lemma timestamps_of_del key key' store :
  timestamps_of key' (dict_del key store) =
  if String.eqb key key' then [] else timestamps_of key' store.
Proof.
  unfold timestamps_of. destruct (String.eqb key key') eqn:E.
  - apply String.eqb_eq in E. subst. by rewrite dict_get_del_eq.
  - apply String.eqb_neq in E. by rewrite dict_get_del_ne.
Qed.

Lemma ticks_per_second_pos : 0 < ticks_per_second.
Proof. reflexivity. Qed.

Lemma float_exact_no_overflow n : float_exact n -> float_overflows n = false.
Proof.
  unfold float_exact, float_overflows. intros H. apply Z.leb_gt.
  assert (2 ^ 53 < 2 ^ 1024 - 2 ^ 970) by (vm_compute; reflexivity). lia.
Qed.

(* ===================================================================== *)
(** * Defaults of [check] *)
(* ===================================================================== *)

Lemma py_or_zero (d : Z) : py_or (Some 0) d = py_or None d.
Proof. reflexivity. Qed.




(* ===================================================================== *)
(** * Fail-open of the external-store backend *)
(* ===================================================================== *)

(** Each fault of the client library before or during [pipe.execute()]
    makes the [try] block raise, whatever the store holds. *)
Lemma _check_redis_try_raises db fault client_id limit period now :
  fault = FailPipeline \/ (exists i, fault = FailQueue i /\ (i < 4)%nat) \/
  fault = FailExecuteUnsent \/ fault = FailExecuteReplyLost ->
  exists db' e, _check_redis_try db fault client_id limit period now = (db', Raise e).
Proof.
  intros [-> | [(i & -> & Hi) | [-> | ->]]]; unfold _check_redis_try;
    [eauto | destruct (float_overflows period); [eauto|] ..].
  - simpl queue_fails. replace (i <? 4)%nat with true; [eauto|].
    symmetry. by apply Nat.ltb_lt.
  - simpl queue_fails. cbv iota. eauto.
  - simpl queue_fails. cbv iota.
    destruct (redis_execute _ db) as [db' results]. eauto.
Qed.

(** C3.  When the external store raises anywhere in the [try] block of
    the check, [check] returns [allowed = True], [remaining] equal to the
    limit in force and a reset time of the current epoch second plus the
    period; it returns a value, the error is not propagated. *)
Theorem check_redis_fail_open
    (self : RateLimiter) (db : Redis) (fault : redis_fault)
    (client_id : string) (limit period : option Z) (now now_exc : Z) :
  redis_client self = true ->
  (exists db' e,
     _check_redis_try db fault client_id
       (py_or limit (default_limit self)) (py_or period (default_period self)) now
     = (db', Raise e)) ->
  exists db',
    check self db fault client_id limit period now now_exc =
      (self, db',
       Ok (true, py_or limit (default_limit self),
           int_time now_exc + py_or period (default_period self))).
Proof.
  intros Hredis (db' & e & Htry). unfold check, _check_redis.
  rewrite Hredis, Htry. by exists db'.
Qed.

Lemma check_redis_fail_open_witness :
  exists db',
    check {| redis_client := true; default_limit := 100; default_period := 60;
             memory_store := [] |}
          {| zsets := ∅; ttl := ∅ |} FailExecuteUnsent "10.0.0.1" None None
          (seconds 5) (seconds 6) =
      ({| redis_client := true; default_limit := 100; default_period := 60;
          memory_store := [] |}, db', Ok (true, 100, 6 + 60)).
Proof.
  apply (check_redis_fail_open
           {| redis_client := true; default_limit := 100; default_period := 60;
              memory_store := [] |}
           {| zsets := ∅; ttl := ∅ |} FailExecuteUnsent "10.0.0.1" None None
           (seconds 5) (seconds 6)).
  - reflexivity.
  - apply _check_redis_try_raises. auto.
Defined.

(* ===================================================================== *)
(** * Header transform *)
(* ===================================================================== *)

(** C6.  The outbound headers have no [host], [connection] or
    [content-length]; they carry [x-gateway-secret] with the configured
    secret and [x-forwarded-for], which is the inbound value followed by
    [", "] and the client address when the request had one, and the client
    address otherwise; every other inbound header is copied unchanged.
    The client address is [request.client.host], and the word ["unknown"]
    when the request has no [client]. *)
Theorem preserve_headers_spec (settings : Settings) (request : Request) :
  let out := preserve_headers settings request in
  out !! "host" = None /\
  out !! "connection" = None /\
  out !! "content-length" = None /\
  out !! "x-gateway-secret" = Some (PROXY_SECRET_KEY settings) /\
  out !! "x-forwarded-for" =
    Some (match headers request !! "x-forwarded-for", client request with
          | Some forwarded, Some host => forwarded +:+ ", " +:+ host
          | Some forwarded, None => forwarded +:+ ", " +:+ "unknown"
          | None, Some host => host
          | None, None => "unknown"
          end) /\
  (forall k : string,
     k <> "host" -> k <> "connection" -> k <> "content-length" ->
     k <> "x-forwarded-for" -> k <> "x-gateway-secret" ->
     out !! k = headers request !! k).
Proof.
  unfold preserve_headers.
  set (hs := delete "content-length" (delete "connection" (delete "host" (headers request)))).
  assert (Hxff : hs !! "x-forwarded-for" = headers request !! "x-forwarded-for").
  { subst hs. by rewrite 3!lookup_delete_ne by done. }
  assert (Hdel : forall k, k = "host" \/ k = "connection" \/ k = "content-length" ->
                           hs !! k = None).
  { subst hs. intros k [-> | [-> | ->]].
    - rewrite 2!lookup_delete_ne by done. apply lookup_delete_eq.
    - rewrite lookup_delete_ne by done. apply lookup_delete_eq.
    - apply lookup_delete_eq. }
  cbv zeta. rewrite Hxff.
  repeat split.
  1-3: rewrite lookup_insert_ne by done;
       destruct (headers request !! "x-forwarded-for");
       (rewrite lookup_insert_ne by done); apply Hdel; auto.
  - by rewrite lookup_insert_eq.
  - rewrite lookup_insert_ne by done. unfold client_host.
    destruct (headers request !! "x-forwarded-for"); rewrite lookup_insert_eq;
      by destruct (client request).
  - intros k H1 H2 H3 H4 H5.
    rewrite lookup_insert_ne by done.
    destruct (headers request !! "x-forwarded-for");
      (rewrite lookup_insert_ne by done); subst hs;
      by rewrite 3!lookup_delete_ne by done.
Qed.

Lemma preserve_headers_spec_witness :
  let settings :=
    {| ENABLE_RATE_LIMITING := true; RATE_LIMIT_REDIS_URL := None;
       DEFAULT_RATE_LIMIT := 100; DEFAULT_RATE_LIMIT_PERIOD := 60;
       PROXY_SECRET_KEY := "dev_secret_key"; SERVICE_ROUTES := [] |} in
  let request :=
    {| headers := <["host" := "gateway.example"]>
                    (<["x-forwarded-for" := "198.51.100.4"]>
                       (<["accept" := "*/*"]> ∅));
       client := Some "203.0.113.7" |} in
  let out := preserve_headers settings request in
  out !! "host" = None /\
  out !! "x-gateway-secret" = Some "dev_secret_key" /\
  out !! "x-forwarded-for" = Some "198.51.100.4, 203.0.113.7" /\
  out !! "accept" = Some "*/*".
Proof.
  cbv zeta.
  destruct (preserve_headers_spec
              {| ENABLE_RATE_LIMITING := true; RATE_LIMIT_REDIS_URL := None;
                 DEFAULT_RATE_LIMIT := 100; DEFAULT_RATE_LIMIT_PERIOD := 60;
                 PROXY_SECRET_KEY := "dev_secret_key"; SERVICE_ROUTES := [] |}
              {| headers := <["host" := "gateway.example"]>
                              (<["x-forwarded-for" := "198.51.100.4"]>
                                 (<["accept" := "*/*"]> ∅));
                 client := Some "203.0.113.7" |})
    as (Hhost & _ & _ & Hsecret & Hxff & Hother).
  split; [exact Hhost|]. split; [exact Hsecret|]. split.
  - rewrite Hxff. vm_compute. reflexivity.
  - rewrite (Hother "accept") by discriminate. vm_compute. reflexivity.
Defined.

(* ===================================================================== *)
(** * Route resolution *)
(* ===================================================================== *)

Lemma prefix_refl (s : string) : String.prefix s s = true.
Proof.
  induction s as [|c s IH]; simpl; [done|].
  destruct (ascii_dec c c) as [_|n]; [apply IH | by destruct n].
Qed.

Lemma contains_self (s : string) : contains s s = true.
Proof.
  destruct s as [|c s]; [reflexivity|].
  change (String.prefix (String c s) (String c s) || contains (String c s) s = true).
  by rewrite prefix_refl.
Qed.

Lemma contains_app_r (sub pre : string) : contains sub (pre +:+ sub) = true.
Proof.
  induction pre as [|c pre IH]; simpl.
  - apply contains_self.
  - rewrite IH. apply orb_true_r.
Qed.

Lemma normalize_path_leading_slash (path : string) :
  String.prefix "/" (normalize_path path) = true /\
  (normalize_path path = path \/ normalize_path path = "/" +:+ path).
Proof.
  unfold normalize_path. destruct (String.prefix "/" path) eqn:E.
  - auto.
  - split; [by destruct path | by right].
Qed.

Lemma get_service_url_loop_skip before rest health np path now :
  no_match np before ->
  get_service_url_loop (before ++ rest) health np path now =
  get_service_url_loop rest health np path now.
Proof.
  induction 1 as [|[p i] before Hp _ IH]; simpl; [done|].
  simpl in Hp. by rewrite Hp.
Qed.

(** C4.  Resolution works on the path with a leading slash; it returns the
    backend URL of the first configured route, in configuration order,
    whose prefix is a prefix of that path, whatever routes follow it; and
    when no configured prefix matches it raises an HTTP 404 whose message
    contains the path as it was given. *)
Theorem get_service_url_first_match
    (routes : dict service_info) (service_health : gmap string HealthStatus)
    (path : string) (now : Z) :
  let normalized_path := normalize_path path in
  (String.prefix "/" normalized_path = true /\
   (normalized_path = path \/ normalized_path = "/" +:+ path)) /\
  (forall before route_prefix service_info after service_url,
     routes = before ++ (route_prefix, service_info) :: after ->
     no_match normalized_path before ->
     String.prefix route_prefix normalized_path = true ->
     info_get "url" service_info = Some service_url ->
     service_url <> "" ->
     fst (get_service_url routes service_health path now) = Ok service_url) /\
  (no_match normalized_path routes ->
     fst (get_service_url routes service_health path now) =
       Raise (HTTPException 404 ("No service configured for path: " +:+ path)) /\
     contains path ("No service configured for path: " +:+ path) = true).
Proof.
  intros np. split; [apply normalize_path_leading_slash|]. split.
  - intros before p info after u -> Hbefore Hp Hu Hne.
    unfold get_service_url. fold np.
    rewrite get_service_url_loop_skip by done. simpl.
    rewrite Hp, Hu. destruct u as [|c u]; [done|].
    by destruct (_ || _).
  - intros Hnone. split; [|apply contains_app_r].
    unfold get_service_url. fold np.
    rewrite <- (app_nil_r routes).
    by rewrite get_service_url_loop_skip.
Qed.

Lemma get_service_url_first_match_witness :
  fst (get_service_url
         [("/auth", [("url", Some "http://auth:8000"); ("health", Some "/health")]);
          ("/auth/admin", [("url", Some "http://admin:9000")])]
         ∅ "auth/admin/users" (seconds 100)) = Ok "http://auth:8000" /\
  fst (get_service_url
         [("/auth", [("url", Some "http://auth:8000"); ("health", Some "/health")])]
         ∅ "/unknown/path" (seconds 100)) =
    Raise (HTTPException 404 "No service configured for path: /unknown/path").
Proof.
  split.
  - apply (get_service_url_first_match
             [("/auth", [("url", Some "http://auth:8000"); ("health", Some "/health")]);
              ("/auth/admin", [("url", Some "http://admin:9000")])]
             ∅ "auth/admin/users" (seconds 100))
      with (before := []) (route_prefix := "/auth")
           (service_info := [("url", Some "http://auth:8000"); ("health", Some "/health")])
           (after := [("/auth/admin", [("url", Some "http://admin:9000")])]);
      [reflexivity | constructor | reflexivity | reflexivity | discriminate].
  - apply (get_service_url_first_match
             [("/auth", [("url", Some "http://auth:8000"); ("health", Some "/health")])]
             ∅ "/unknown/path" (seconds 100)).
    repeat constructor.
Defined.

(** C5, as stated, fails: a configured route table whose route has no
    ["url"] entry loads without error at start-up, and the missing URL
    only shows when a request reaches the route. *)
Lemma startup_accepts_route_without_url :
  ~ (forall (v : option (dict service_info)) (values : gmap string string),
       (exists r, In r (create_service_routes v values) /\
                  has_backend_url (snd r) = false) ->
       exists e, load_service_routes v values = Raise e).
Proof.
  intros H.
  destruct (H (Some [("/map", [("health", Some "/health")])]) ∅) as [e He].
  - exists ("/map", [("health", Some "/health")]). split; [left|]; reflexivity.
  - discriminate He.
Qed.

(** C5, amended.  Loading a configured route table checks one thing, that
    every value of every route is a string: a non-empty table that passes
    is taken as it is, whether or not each route has a ["url"] entry and
    even when that entry is the empty string, and a table in which some
    value is [None] is refused at start-up.  A route whose backend URL is
    absent or empty is therefore detected at request time only: when it is
    the first route matching the path, resolution raises
    [ServiceUnavailableError] naming the route. *)
Theorem missing_url_detected_at_request_time :
  (forall (routes : dict service_info) (values : gmap string string),
     routes <> [] -> well_typed_routes routes = true ->
     load_service_routes (Some routes) values = Ok routes) /\
  (forall (routes : dict service_info) (values : gmap string string),
     routes <> [] -> well_typed_routes routes = false ->
     exists e, load_service_routes (Some routes) values = Raise e) /\
  (forall (route_prefix : string) (info : service_info),
     dict_get "url" info = None \/ dict_get "url" info = Some (Some "") ->
     Forall (fun kv => snd kv <> None) info ->
     well_typed_routes [(route_prefix, info)] = true /\
     has_backend_url info = false) /\
  (forall (routes before after : dict service_info) route_prefix service_info
          (service_health : gmap string HealthStatus) (path : string) (now : Z),
     routes = before ++ (route_prefix, service_info) :: after ->
     no_match (normalize_path path) before ->
     String.prefix route_prefix (normalize_path path) = true ->
     has_backend_url service_info = false ->
     get_service_url routes service_health path now =
       (Raise (ServiceUnavailableError
                 ("Service configuration for " +:+ route_prefix +:+ " is missing")),
        [])).
Proof.
  split; [|split; [|split]].
  - intros routes values Hne Hwt. unfold load_service_routes, create_service_routes.
    destruct routes; [done|]. by rewrite Hwt.
  - intros routes values Hne Hwt. unfold load_service_routes, create_service_routes.
    destruct routes; [done|]. rewrite Hwt. eauto.
  - intros p info Hurl Hall. split.
    + unfold well_typed_routes. cbn [forallb snd]. rewrite andb_true_r.
      apply forallb_forall. intros kv Hkv.
      rewrite List.Forall_forall in Hall. specialize (Hall kv Hkv).
      by destruct (snd kv).
    + unfold has_backend_url, info_get. by destruct Hurl as [-> | ->].
  - intros routes before after p info health path now -> Hbefore Hp Hurl.
    unfold get_service_url. rewrite get_service_url_loop_skip by done.
    simpl. rewrite Hp. unfold has_backend_url, truthy in Hurl.
    destruct (info_get "url" info) as [[|c u]|]; done.
Qed.

Lemma missing_url_detected_at_request_time_witness :
  load_service_routes (Some [("/map", [("health", Some "/health")])]) ∅ =
    Ok [("/map", [("health", Some "/health")])] /\
  get_service_url [("/map", [("health", Some "/health")])] ∅ "/map/tiles" (seconds 100) =
    (Raise (ServiceUnavailableError "Service configuration for /map is missing"), []).
Proof.
  split.
  - apply missing_url_detected_at_request_time; [discriminate | reflexivity].
  - apply (proj2 (proj2 (proj2 missing_url_detected_at_request_time))
             [("/map", [("health", Some "/health")])] []  []
             "/map" [("health", Some "/health")] ∅ "/map/tiles" (seconds 100));
      [reflexivity | constructor | reflexivity | reflexivity].
Defined.

(* ===================================================================== *)
(** * Health tracker *)
(* ===================================================================== *)

Lemma check_service_health_probed routes health service_path http_get now url :
  probed_url routes service_path = Some url ->
  check_service_health routes health service_path http_get now =
    (<[service_path := probe_entry (http_get url) now]> health,
     Ok (is_healthy (probe_entry (http_get url) now))).
Proof.
  unfold probed_url, check_service_health.
  destruct (dict_get service_path routes) as [[|kv info]|]; try done.
  destruct (info_get "url" (kv :: info)) as [[|c u]|]; try done.
  intros [= <-]. by destruct (http_get _).
Qed.

Lemma check_service_health_not_probed routes health service_path http_get now :
  probed_url routes service_path = None ->
  check_service_health routes health service_path http_get now = (health, Ok false).
Proof.
  unfold probed_url, check_service_health.
  destruct (dict_get service_path routes) as [[|kv info]|]; try done.
  by destruct (info_get "url" (kv :: info)) as [[|c u]|].
Qed.

(** The health map after one check per path. *)
Lemma gather_health_checks_spec routes paths health http_get now :
  exists results,
    gather_health_checks routes paths health http_get now =
      (record_probes routes http_get now paths health,
       Ok results) /\
    results =
      map (fun p => match probed_url routes p with
                    | Some url => is_healthy (probe_entry (http_get url) now)
                    | None => false
                    end) paths.
Proof.
  unfold record_probes.
  revert health. induction paths as [|p paths IH]; intros health; simpl.
  - by exists [].
  - destruct (probed_url routes p) as [url|] eqn:E.
    + rewrite (check_service_health_probed _ _ _ _ _ url E).
      destruct (IH (<[p := probe_entry (http_get url) now]> health))
        as (rs & -> & ->).
      eexists. split; reflexivity.
    + rewrite (check_service_health_not_probed _ _ _ _ _ E).
      destruct (IH health) as (rs & -> & ->).
      eexists. split; reflexivity.
Qed.

Lemma fold_probe_lookup_notin routes paths health http_get now p :
  ~ In p paths ->
  record_probes routes http_get now paths health !! p = health !! p.
Proof.
  unfold record_probes.
  revert health. induction paths as [|q paths IH]; intros health Hnot; simpl; [done|].
  rewrite IH by (intros H; apply Hnot; by right).
  destruct (probed_url routes q); [|done].
  rewrite lookup_insert_ne; [done|]. intros ->. apply Hnot. by left.
Qed.

Lemma fold_probe_lookup_in routes paths health http_get now p url :
  In p paths -> probed_url routes p = Some url ->
  record_probes routes http_get now paths health !! p = Some (probe_entry (http_get url) now).
Proof.
  revert health. induction paths as [|q paths IH]; intros health Hin Hurl; [done|].
  change (record_probes routes http_get now (q :: paths) health)
    with (record_probes routes http_get now paths
            (match probed_url routes q with
             | Some url => <[q := probe_entry (http_get url) now]> health
             | None => health
             end)).
  destruct (in_dec string_dec p paths) as [Hp|Hp].
  - by apply IH.
  - destruct Hin as [->|Hin]; [|done].
    rewrite fold_probe_lookup_notin by done.
    rewrite Hurl. apply lookup_insert_eq.
Qed.

Lemma dict_get_Some_In {V : Type} (k : string) (v : V) (d : dict V) :
  dict_get k d = Some v -> In (k, v) d.
Proof.
  induction d as [|[k' v'] d IH]; simpl; [done|].
  destruct (String.eqb k k') eqn:E.
  - apply String.eqb_eq in E. intros [= ->]. subst. by left.
  - intros H. right. by apply IH.
Qed.

Lemma health_results_fold_notin items health now p (acc : dict HealthReport) :
  ~ In p (map (fun it => fst (fst it)) items) ->
  dict_get p
    (fold_left
       (fun acc item =>
          let '(service_path, service_info, r) := item in
          dict_set service_path (report_of health now service_path service_info r) acc)
       items acc) = dict_get p acc.
Proof.
  revert acc. induction items as [|[[q info] r] items IH]; intros acc Hnot; [done|].
  cbn [fold_left]. rewrite IH by (intros H; apply Hnot; by right).
  apply dict_get_set_ne. intros ->. apply Hnot. by left.
Qed.

Lemma dict_get_health_results items health now p service_info r :
  List.NoDup (map (fun it => fst (fst it)) items) ->
  In (p, service_info, r) items ->
  dict_get p (health_results items health now) =
    Some (report_of health now p service_info r).
Proof.
  unfold health_results.
  generalize (@nil (string * HealthReport)) as acc.
  induction items as [|[[q info'] r'] items IH]; intros acc Hnd Hin; [done|].
  simpl in Hnd. apply NoDup_cons_iff in Hnd as [Hq Hnd].
  cbn [fold_left].
  destruct Hin as [[= -> -> ->]|Hin].
  - rewrite health_results_fold_notin by done. apply dict_get_set_eq.
  - by apply IH.
Qed.

Lemma combine_results (routes : dict service_info) (g : string -> bool) :
  combine routes (map g (dict_keys routes)) = map (fun kv => (kv, g (fst kv))) routes.
Proof.
  unfold dict_keys. induction routes as [|kv routes IH]; simpl; [done|].
  by rewrite IH.
Qed.

(** The response of [GET /services/health] for a probed route. *)
Lemma service_health_check_spec routes health http_get now now_report p service_info url :
  List.NoDup (dict_keys routes) ->
  dict_get p routes = Some service_info ->
  probed_url routes p = Some url ->
  exists health' reports,
    service_health_check routes health http_get now now_report = (health', Ok reports) /\
    health' !! p = Some (probe_entry (http_get url) now) /\
    dict_get p reports =
      Some {| report_url := info_get "url" service_info;
              report_is_healthy := is_healthy (probe_entry (http_get url) now);
              report_last_checked := now;
              report_error := error (probe_entry (http_get url) now) |}.
Proof.
  intros Hnd Hget Hurl. unfold service_health_check.
  destruct (gather_health_checks_spec routes (dict_keys routes) health http_get now)
    as (results & -> & ->).
  eexists _, _. split; [reflexivity|].
  assert (Hin : In p (dict_keys routes)) by (by eapply dict_get_In).
  assert (Hh : record_probes routes http_get now (dict_keys routes) health !! p =
               Some (probe_entry (http_get url) now))
    by (by apply fold_probe_lookup_in).
  split; [done|].
  rewrite combine_results.
  rewrite (dict_get_health_results _ _ _ p service_info
             (match probed_url routes p with
              | Some url => is_healthy (probe_entry (http_get url) now)
              | None => false
              end)).
  - unfold report_of. rewrite Hh, Hurl. by destruct (http_get url).
  - rewrite map_map. simpl. exact Hnd.
  - apply in_map_iff. exists (p, service_info). split; [reflexivity|].
    by apply dict_get_Some_In.
Qed.

(** C7, as stated, fails: when the health endpoint of [/map] answers 503
    the route is recorded as unhealthy with no error text, and
    [GET /services/health], which probes again, reports it as unhealthy
    with [error] null. *)
Lemma non_200_records_no_error :
  let routes : dict service_info :=
    [("/map", [("url", Some "http://map-service:8003"); ("health", Some "/health")])] in
  let http_get : string -> result Z := fun _ => Ok 503 in
  let after_probe := check_service_health routes ∅ "/map" http_get (seconds 100) in
  snd after_probe = Ok false /\
  (fst after_probe) !! "/map" =
    Some {| is_healthy := false; last_checked := seconds 100; error := None |} /\
  exists reports,
    snd (service_health_check routes (fst after_probe) http_get (seconds 200) (seconds 200))
      = Ok reports /\
    dict_get "/map" reports =
      Some {| report_url := Some "http://map-service:8003";
              report_is_healthy := false;
              report_last_checked := seconds 200;
              report_error := None |}.
Proof.
  cbv zeta. split; [reflexivity|]. split; [reflexivity|].
  eexists. split; reflexivity.
Qed.

(** C7, amended.  For a configured route with a backend URL, a completed
    probe records the route as healthy exactly when the response status is
    200.  A response with another status records it as unhealthy with no
    error text; a raised exception (timeout, connection error) records it
    as unhealthy with the text of the exception.  [GET /services/health]
    probes every route again and reports, for the route, the health and
    the error text of that new probe. *)
Theorem health_probe_records
    (routes : dict service_info) (service_health : gmap string HealthStatus)
    (service_path : string) (info : service_info) (url : string)
    (http_get : string -> result Z) (now now_report : Z) :
  List.NoDup (dict_keys routes) ->
  dict_get service_path routes = Some info ->
  probed_url routes service_path = Some url ->
  (forall status, http_get url = Ok status ->
     check_service_health routes service_health service_path http_get now =
       (<[service_path := {| is_healthy := status =? 200;
                             last_checked := now;
                             error := None |}]> service_health,
        Ok (status =? 200))) /\
  (forall e, http_get url = Raise e ->
     check_service_health routes service_health service_path http_get now =
       (<[service_path := {| is_healthy := false;
                             last_checked := now;
                             error := Some (str_exn e) |}]> service_health,
        Ok false)) /\
  exists service_health' reports,
    service_health_check routes service_health http_get now now_report =
      (service_health', Ok reports) /\
    service_health' !! service_path = Some (probe_entry (http_get url) now) /\
    dict_get service_path reports =
      Some {| report_url := info_get "url" info;
              report_is_healthy := is_healthy (probe_entry (http_get url) now);
              report_last_checked := now;
              report_error := error (probe_entry (http_get url) now) |}.
Proof.
  intros Hnd Hget Hurl. split; [|split].
  - intros status Hs.
    rewrite (check_service_health_probed _ _ _ _ _ url Hurl). by rewrite Hs.
  - intros e He.
    rewrite (check_service_health_probed _ _ _ _ _ url Hurl). by rewrite He.
  - by apply service_health_check_spec.
Qed.

Lemma health_probe_records_witness :
  check_service_health
    [("/map", [("url", Some "http://map-service:8003"); ("health", Some "/health")])]
    ∅ "/map" (fun _ => Raise (HttpxError "timed out")) (seconds 100) =
  (<["/map" := {| is_healthy := false; last_checked := seconds 100;
                  error := Some "timed out" |}]> ∅, Ok false).
Proof.
  refine (proj1 (proj2 (health_probe_records
           [("/map", [("url", Some "http://map-service:8003"); ("health", Some "/health")])]
           ∅ "/map" [("url", Some "http://map-service:8003"); ("health", Some "/health")]
           "http://map-service:8003/health"
           (fun _ => Raise (HttpxError "timed out")) (seconds 100) (seconds 100)
           _ _ _)) (HttpxError "timed out") _).
  - repeat constructor. simpl. tauto.
  - reflexivity.
  - reflexivity.
  - reflexivity.
Defined.

(** C8.  Whatever the probe does, a response of any status or an
    exception, [check_service_health] returns a boolean and never raises;
    a probe that does not answer 200 is recorded as unhealthy in the health
    map.  Route resolution only reads the health map: its outcome is the
    same for every health map and clock, and a route never checked counts
    as healthy, so that only the age of its (absent) entry can trigger a
    background check. *)
Theorem health_check_never_raises
    (routes : dict service_info) (service_health : gmap string HealthStatus)
    (service_path : string) (http_get : string -> result Z) (now : Z) :
  (exists b : bool,
     snd (check_service_health routes service_health service_path http_get now) = Ok b) /\
  (forall url, probed_url routes service_path = Some url ->
     http_get url <> Ok 200 ->
     snd (check_service_health routes service_health service_path http_get now) = Ok false /\
     exists s,
       (fst (check_service_health routes service_health service_path http_get now))
         !! service_path = Some s /\
       is_healthy s = false /\
       (forall e, http_get url = Raise e -> error s = Some (str_exn e))) /\
  (forall (health' : gmap string HealthStatus) (path : string) (now' : Z),
     fst (get_service_url routes service_health path now) =
     fst (get_service_url routes health' path now')) /\
  (forall before route_prefix info after service_url path,
     routes = before ++ (route_prefix, info) :: after ->
     no_match (normalize_path path) before ->
     String.prefix route_prefix (normalize_path path) = true ->
     info_get "url" info = Some service_url -> service_url <> "" ->
     service_health !! route_prefix = None ->
     get_service_url routes service_health path now =
       (Ok service_url, if seconds 60 <? now then [route_prefix] else [])).
Proof.
  split; [|split; [|split]].
  - destruct (probed_url routes service_path) as [url|] eqn:E.
    + rewrite (check_service_health_probed _ _ _ _ _ url E). eauto.
    + rewrite (check_service_health_not_probed _ _ _ _ _ E). eauto.
  - intros url Hurl Hne.
    rewrite (check_service_health_probed _ _ _ _ _ url Hurl). simpl.
    rewrite lookup_insert_eq.
    destruct (http_get url) as [status|e] eqn:E; simpl.
    + assert ((status =? 200) = false) as ->.
      { apply Z.eqb_neq. intros ->. by apply Hne. }
      split; [done|]. eexists. split; [done|]. split; [done|]. by intros e.
    + split; [done|]. eexists. split; [done|]. split; [done|].
      by intros e' [= ->].
  - intros health' path now'. unfold get_service_url.
    generalize (normalize_path path) as np.
    intros np. induction routes as [|[p i] rs IH]; simpl; [done|].
    destruct (String.prefix p np); [|apply IH].
    destruct (info_get "url" i) as [[|c u]|]; try done.
    by do 2 destruct (_ || _).
  - intros before p info after u path -> Hbefore Hp Hu Hne Hnone.
    unfold get_service_url. rewrite get_service_url_loop_skip by done.
    cbn [get_service_url_loop]. rewrite Hp, Hu, Hnone. destruct u as [|c u]; [done|].
    rewrite Z.sub_0_r, orb_false_r. by destruct (seconds 60 <? now).
Qed.

Lemma health_check_never_raises_witness :
  snd (check_service_health
         [("/map", [("url", Some "http://map-service:8003")])] ∅ "/map"
         (fun _ => Raise (HttpxError "connection refused")) (seconds 100)) = Ok false.
Proof.
  apply (health_check_never_raises
           [("/map", [("url", Some "http://map-service:8003")])] ∅ "/map"
           (fun _ => Raise (HttpxError "connection refused")) (seconds 100))
    with (url := "http://map-service:8003/health"); [reflexivity | discriminate].
Defined.

(* ===================================================================== *)
(** * Keys of the memory store *)
(* ===================================================================== *)

Lemma split_nonempty sep s : split sep s <> [].
Proof.
  destruct s as [|c s]; simpl; [done|].
  destruct (Ascii.eqb c sep); [done|]. by destruct (split sep s).
Qed.

Lemma split_app sep s1 s2 :
  split sep (s1 +:+ String sep s2) = split sep s1 ++ split sep s2.
Proof.
  induction s1 as [|c s1 IH]; simpl.
  - by rewrite Ascii.eqb_refl.
  - destruct (Ascii.eqb c sep); [by rewrite IH|].
    rewrite IH. destruct (split sep s1) as [|p ps] eqn:E; [|done].
    by apply split_nonempty in E.
Qed.

Lemma prefix_char a c s :
  String.prefix (String a EmptyString) (String c s) = Ascii.eqb c a.
Proof.
  change (String.prefix (String a EmptyString) (String c s))
    with (if ascii_dec a c then String.prefix EmptyString s else false).
  destruct (ascii_dec a c) as [<-|Hne].
  - rewrite Ascii.eqb_refl. by destruct s.
  - symmetry. apply Ascii.eqb_neq. congruence.
Qed.

Lemma contains_char_cons a c s :
  contains (String a EmptyString) (String c s) =
  Ascii.eqb c a || contains (String a EmptyString) s.
Proof.
  change (contains (String a EmptyString) (String c s))
    with (String.prefix (String a EmptyString) (String c s)
          || contains (String a EmptyString) s).
  by rewrite prefix_char.
Qed.

Lemma colon_free_split s : colon_free s -> split ":" s = [s].
Proof.
  unfold colon_free. induction s as [|c s IH]; [done|].
  rewrite contains_char_cons. intros H. apply orb_false_elim in H as [Hc Hs].
  simpl. by rewrite Hc, (IH Hs).
Qed.

Lemma split_colon_free s : split ":" s = [s] -> colon_free s.
Proof.
  unfold colon_free. induction s as [|c s IH]; [done|].
  simpl split. rewrite contains_char_cons. destruct (Ascii.eqb c ":") eqn:E.
  - intros [=].
  - destruct (split ":" s) as [|p ps] eqn:Es; [by apply split_nonempty in Es|].
    intros [= -> ->]. by rewrite (IH eq_refl).
Qed.

Lemma string_of_uint_colon_free d : colon_free (NilEmpty.string_of_uint d).
Proof.
  unfold colon_free.
  induction d; cbn [NilEmpty.string_of_uint]; try done;
    by rewrite contains_char_cons, IHd.
Qed.

Lemma str_colon_free z : colon_free (str z).
Proof.
  unfold str, NilZero.string_of_int, NilZero.string_of_uint.
  destruct (Z.to_int z) as [d|d]; destruct d; try done;
    try apply (string_of_uint_colon_free (_ _));
    apply split_colon_free; simpl;
    rewrite (colon_free_split _ (string_of_uint_colon_free _)); done.
Qed.

Lemma int_str z : int (str z) = Ok z.
Proof.
  unfold int, str. rewrite NilZero.isi.
  - by rewrite DecimalZ.of_to.
  - destruct z; simpl; try done; intros [= H]; by apply DecimalPos.Unsigned.to_uint_nonnil in H.
  - destruct z; simpl; try done; intros [= H]; by apply DecimalPos.Unsigned.to_uint_nonnil in H.
Qed.

(** The key of [(client_id, period)] splits at its colons into the parts
    of [client_id] followed by [str(period)]. *)
Lemma split_key client_id period :
  split ":" (client_id +:+ ":" +:+ str period) = split ":" client_id ++ [str period].
Proof.
  change (client_id +:+ ":" +:+ str period)
    with (client_id +:+ String ":" (str period)).
  rewrite split_app. by rewrite (colon_free_split _ (str_colon_free period)).
Qed.

Lemma key_period_colon_free client_id period :
  colon_free client_id ->
  float_overflows period = false ->
  key_period (client_id +:+ ":" +:+ str period) = Ok period.
Proof.
  intros H Hf. unfold key_period. rewrite split_key, (colon_free_split _ H). simpl.
  by rewrite int_str, Hf.
Qed.

(** Whatever the client identity, a key never parses to another period
    than its own. *)
Lemma key_period_own client_id period p :
  key_period (client_id +:+ ":" +:+ str period) = Ok p -> p = period.
Proof.
  unfold key_period. rewrite split_key.
  destruct (split ":" client_id) as [|a [|b l]] eqn:E; simpl.
  - by apply split_nonempty in E.
  - rewrite int_str. destruct (float_overflows period); [done|]. by intros [= ->].
  - destruct l; simpl; discriminate.
Qed.

(* ===================================================================== *)
(** * The periodic sweep *)
(* ===================================================================== *)

Lemma newer_than_app c l1 l2 :
  newer_than c (l1 ++ l2) = newer_than c l1 ++ newer_than c l2.
Proof. unfold newer_than. apply List.filter_app. Qed.

Lemma newer_than_twice c1 c2 l :
  c1 <= c2 -> newer_than c2 (newer_than c1 l) = newer_than c2 l.
Proof.
  intros Hc. unfold newer_than. induction l as [|x l IH]; simpl; [done|].
  destruct (c1 <? x) eqn:E1; simpl; rewrite IH; [done|].
  destruct (c2 <? x) eqn:E2; [|done].
  apply Z.ltb_lt in E2. apply Z.ltb_ge in E1. lia.
Qed.

Lemma newer_than_idem c l : newer_than c (newer_than c l) = newer_than c l.
Proof. by apply newer_than_twice. Qed.

Lemma newer_than_length_mono c1 c2 l :
  c1 <= c2 -> (length (newer_than c2 l) <= length (newer_than c1 l))%nat.
Proof.
  intros Hc. unfold newer_than. induction l as [|x l IH]; simpl; [done|].
  destruct (c2 <? x) eqn:E2; destruct (c1 <? x) eqn:E1; simpl; lia.
Qed.

Lemma newer_than_all c l :
  Forall (fun x => c < x) l -> newer_than c l = l.
Proof.
  unfold newer_than. induction 1 as [|x l Hx _ IH]; simpl; [done|].
  apply Z.ltb_lt in Hx. by rewrite Hx, IH.
Qed.

Lemma clean_loop_cons key rest now store keys_to_delete :
  clean_loop (key :: rest) now store keys_to_delete =
  match key_period key with
  | Ok period =>
      let kept := newer_than (now - seconds period) (timestamps_of key store) in
      clean_loop rest now (dict_set key kept store)
        (match kept with [] => keys_to_delete ++ [key] | _ => keys_to_delete end)
  | Raise e => (store, Raise e)
  end.
Proof.
  cbn [clean_loop]. unfold key_period.
  destruct (split ":" key) as [|a [|b [|c l]]]; try done.
  destruct (int b) as [period|e]; [|done].
  by destruct (float_overflows period).
Qed.

(** Under a key whose period is [T], the sweep leaves the timestamps as
    they are or drops those not newer than its cutoff. *)
Lemma clean_loop_timestamps keys now store ktd store' r k T :
  (forall p, key_period k = Ok p -> p = T) ->
  clean_loop keys now store ktd = (store', r) ->
  timestamps_of k store' = timestamps_of k store \/
  timestamps_of k store' = newer_than (now - seconds T) (timestamps_of k store).
Proof.
  intros Hown. revert store ktd.
  induction keys as [|key rest IH]; intros store ktd.
  - intros [= <- _]. by left.
  - rewrite clean_loop_cons. destruct (key_period key) as [p|e] eqn:E.
    + cbv zeta. intros Hloop. apply IH in Hloop.
      destruct (string_dec key k) as [->|Hne].
      * rewrite timestamps_of_set_eq in Hloop. apply Hown in E as ->.
        rewrite newer_than_idem in Hloop. destruct Hloop; by right.
      * by rewrite timestamps_of_set_ne in Hloop.
    + intros [= <- _]. by left.
Qed.

(** When the loop completes, every key of the store it went through has
    been trimmed, and every key marked for deletion is empty. *)
Lemma clean_loop_ok keys now store ktd store' ktd' :
  clean_loop keys now store ktd = (store', Ok ktd') ->
  (forall k T, In k keys -> key_period k = Ok T ->
     timestamps_of k store' = newer_than (now - seconds T) (timestamps_of k store)) /\
  (forall k, ~ In k keys -> timestamps_of k store' = timestamps_of k store) /\
  ((forall k, In k ktd -> timestamps_of k store = []) ->
   forall k, In k ktd' -> timestamps_of k store' = []).
Proof.
  revert store ktd. induction keys as [|key rest IH]; intros store ktd.
  - intros [= <- <-]. repeat split; try done.
  - rewrite clean_loop_cons. destruct (key_period key) as [p|e] eqn:E; [|done].
    cbv zeta. intros Hloop. pose proof Hloop as Hts.
    apply IH in Hloop as (Hin & Hnot & Hdel).
    split; [|split].
    + intros k T [->|Hk] HT.
      * rewrite E in HT. injection HT as ->.
        destruct (in_dec string_dec k rest) as [Hr|Hr].
        -- rewrite (Hin k T Hr E), timestamps_of_set_eq. apply newer_than_idem.
        -- by rewrite (Hnot k Hr), timestamps_of_set_eq.
      * rewrite (Hin k T Hk HT).
        destruct (string_dec key k) as [->|Hne].
        -- rewrite E in HT. injection HT as ->.
           rewrite timestamps_of_set_eq. apply newer_than_idem.
        -- by rewrite timestamps_of_set_ne.
    + intros k Hk. rewrite Hnot by (intros H; apply Hk; by right).
      apply timestamps_of_set_ne. intros ->. apply Hk. by left.
    + intros Hempty. apply Hdel. intros k Hk.
      destruct (string_dec key k) as [->|Hne].
      * rewrite timestamps_of_set_eq.
        destruct (newer_than _ _) eqn:Ek; [done|].
        rewrite <- Ek. rewrite (Hempty k Hk). done.
      * rewrite timestamps_of_set_ne by done.
        destruct (newer_than _ _) eqn:Ek; [|by apply Hempty].
        apply in_app_iff in Hk as [Hk|[->|[]]]; [by apply Hempty | done].
Qed.

Lemma fold_dict_del_timestamps (ktd : list string) (store : dict (list Z)) k :
  (forall k', In k' ktd -> timestamps_of k' store = []) ->
  timestamps_of k (fold_left (fun d key => dict_del key d) ktd store) =
  timestamps_of k store.
Proof.
  revert store. induction ktd as [|k0 ktd IH]; intros store Hempty; [done|].
  simpl. assert (Hstep : forall k', timestamps_of k' (dict_del k0 store) =
                                    timestamps_of k' store).
  { intros k'. rewrite timestamps_of_del. destruct (String.eqb k0 k') eqn:E; [|done].
    apply String.eqb_eq in E as <-. symmetry. apply Hempty. by left. }
  rewrite IH; [apply Hstep|].
  intros k' Hk'. rewrite Hstep. apply Hempty. by right.
Qed.

(** [_clean_memory_store] on the timestamps of a key whose period is [T]. *)
Lemma _clean_memory_store_timestamps self now self' r k T :
  (forall p, key_period k = Ok p -> p = T) ->
  _clean_memory_store self now = (self', r) ->
  timestamps_of k (memory_store self') = timestamps_of k (memory_store self) \/
  timestamps_of k (memory_store self') =
    newer_than (now - seconds T) (timestamps_of k (memory_store self)).
Proof.
  intros Hown. unfold _clean_memory_store.
  destruct (clean_loop _ now (memory_store self) []) as [store [ktd|e]] eqn:E;
    intros [= <- _]; simpl.
  - rewrite fold_dict_del_timestamps.
    + by eapply clean_loop_timestamps.
    + by eapply clean_loop_ok.
  - by eapply clean_loop_timestamps.
Qed.

Lemma _clean_memory_store_ok self now self' u k T :
  _clean_memory_store self now = (self', Ok u) ->
  key_period k = Ok T ->
  timestamps_of k (memory_store self') =
    newer_than (now - seconds T) (timestamps_of k (memory_store self)).
Proof.
  unfold _clean_memory_store.
  destruct (clean_loop _ now (memory_store self) []) as [store [ktd|e]] eqn:E;
    intros [= <- _] HT; simpl.
  rewrite fold_dict_del_timestamps by (by eapply clean_loop_ok).
  destruct (in_dec string_dec k (dict_keys (memory_store self))) as [Hin|Hnot].
  - by eapply clean_loop_ok.
  - apply clean_loop_ok in E as (_ & Hn & _). rewrite (Hn k Hnot).
    unfold timestamps_of. destruct (dict_get k (memory_store self)) eqn:Eg; [|done].
    exfalso. apply Hnot. by eapply dict_get_In.
Qed.

Lemma _clean_memory_store_defaults self now self' r :
  _clean_memory_store self now = (self', r) ->
  default_limit self' = default_limit self /\
  default_period self' = default_period self /\
  redis_client self' = redis_client self.
Proof.
  unfold _clean_memory_store.
  destruct (clean_loop _ now (memory_store self) []) as [store [ktd|e]];
    by intros [= <- _].
Qed.

(* ===================================================================== *)
(** * One call of the in-memory backend *)
(* ===================================================================== *)

(** With a period beyond the doubles, [_check_memory] makes sure the
    client's key is in the store and raises at [now - period]. *)
Lemma _check_memory_overflow self client_id limit period now now_sweep :
  float_overflows period = true ->
  exists store0,
    _check_memory self client_id limit period now now_sweep =
      (set_memory_store self store0,
       Raise (OverflowError "int too large to convert to float")) /\
    (forall k, timestamps_of k store0 = timestamps_of k (memory_store self)) /\
    (forall k', In k' (dict_keys store0) <->
                k' = client_id +:+ ":" +:+ str period \/
                In k' (dict_keys (memory_store self))).
Proof.
  intros Hf. unfold _check_memory. rewrite Hf.
  set (key := client_id +:+ ":" +:+ str period).
  eexists. split; [reflexivity|].
  destruct (dict_mem key (memory_store self)) eqn:E.
  - split; [done|]. intros k'. split; [by right|]. intros [->|H]; [|done].
    unfold dict_mem in E. destruct (dict_get key (memory_store self)) eqn:Eg; [|done].
    by eapply dict_get_In.
  - split; [|intros k'; apply dict_keys_set]. intros k.
    destruct (string_dec key k) as [<-|Hne].
    + rewrite timestamps_of_set_eq. unfold timestamps_of, dict_mem in *.
      by destruct (dict_get key (memory_store self)).
    + by apply timestamps_of_set_ne.
Qed.

(** Otherwise [_check_memory] trims the client's timestamps, appends the
    clock reading when fewer than [limit] remain, touches no other key,
    and then runs the sweep when it is due. *)
Lemma _check_memory_eq self client_id limit period now now_sweep :
  float_overflows period = false ->
  let key := client_id +:+ ":" +:+ str period in
  let kept := newer_than (now - seconds period) (timestamps_of key (memory_store self)) in
  let allowed := Z.of_nat (length kept) <? limit in
  let recorded := if allowed then kept ++ [now] else kept in
  let remaining := Z.max 0 (limit - Z.of_nat (length recorded)) in
  exists store1 reset_time,
    timestamps_of key store1 = recorded /\
    (forall k', k' <> key ->
       timestamps_of k' store1 = timestamps_of k' (memory_store self)) /\
    (forall k', In k' (dict_keys store1) <->
                k' = key \/ In k' (dict_keys (memory_store self))) /\
    _check_memory self client_id limit period now now_sweep =
      (if sweep_due now then
         match _clean_memory_store (set_memory_store self store1) now_sweep with
         | (self', Ok _) => (self', Ok (allowed, remaining, reset_time))
         | (self', Raise e) => (self', Raise e)
         end
       else (set_memory_store self store1, Ok (allowed, remaining, reset_time))).
Proof.
  intros Hf key kept allowed recorded remaining. unfold _check_memory.
  rewrite Hf. fold key. cbv zeta.
  set (store0 := if dict_mem key (memory_store self) then _ else _).
  assert (H0 : timestamps_of key store0 = timestamps_of key (memory_store self)).
  { subst store0. destruct (dict_mem key (memory_store self)) eqn:E; [done|].
    rewrite timestamps_of_set_eq. unfold timestamps_of, dict_mem in *.
    by destruct (dict_get key (memory_store self)). }
  assert (H0' : forall k', k' <> key ->
                  timestamps_of k' store0 = timestamps_of k' (memory_store self)).
  { intros k' Hk. subst store0. destruct (dict_mem key (memory_store self)); [done|].
    by apply timestamps_of_set_ne. }
  rewrite !timestamps_of_set_eq, H0. fold kept. fold allowed.
  set (store1 := if allowed then _ else _).
  assert (H1 : timestamps_of key store1 = recorded).
  { subst store1 recorded. destruct allowed; by rewrite ?timestamps_of_set_eq. }
  rewrite H1. fold remaining.
  assert (K0 : forall k', In k' (dict_keys store0) <->
                 k' = key \/ In k' (dict_keys (memory_store self))).
  { intros k'. subst store0. destruct (dict_mem key (memory_store self)) eqn:E.
    - split; [by right|]. intros [->|H]; [|done].
      unfold dict_mem in E. destruct (dict_get key (memory_store self)) eqn:Eg; [|done].
      by eapply dict_get_In.
    - apply dict_keys_set. }
  eexists store1, _. split; [exact H1|]. split; [|split; [|reflexivity]].
  - intros k' Hk. subst store1.
    destruct allowed; rewrite ?timestamps_of_set_ne by done; by apply H0'.
  - intros k'. subst store1.
    destruct allowed; rewrite !dict_keys_set, K0; tauto.
Qed.

Lemma _check_memory_in_range self client_id limit period now now_sweep self' r :
  _check_memory self client_id limit period now now_sweep = (self', Ok r) ->
  float_overflows period = false.
Proof.
  intros H. destruct (float_overflows period) eqn:Hf; [|done].
  destruct (_check_memory_overflow self client_id limit period now now_sweep Hf)
    as (store0 & Heq & _).
  rewrite Heq in H. discriminate.
Qed.

Lemma _check_memory_defaults self client_id limit period now now_sweep self' r :
  _check_memory self client_id limit period now now_sweep = (self', r) ->
  default_limit self' = default_limit self /\
  default_period self' = default_period self /\
  redis_client self' = redis_client self.
Proof.
  destruct (float_overflows period) eqn:Hf.
  { destruct (_check_memory_overflow self client_id limit period now now_sweep Hf)
      as (store0 & -> & _). by intros [= <- _]. }
  destruct (_check_memory_eq self client_id limit period now now_sweep Hf)
    as (store1 & reset_time & _ & _ & _ & ->).
  destruct (sweep_due now).
  - destruct (_clean_memory_store _ now_sweep) as [s [u|e]] eqn:E;
      intros [= <- _]; by apply _clean_memory_store_defaults in E.
  - by intros [= <- _].
Qed.

(** The timestamps of a key after a call: those of the call's own part,
    possibly trimmed once more by the sweep. *)
Lemma _check_memory_timestamps self client_id limit period now now_sweep self' r k T :
  (forall p, key_period k = Ok p -> p = T) ->
  _check_memory self client_id limit period now now_sweep = (self', r) ->
  let key := client_id +:+ ":" +:+ str period in
  let kept := newer_than (now - seconds period) (timestamps_of key (memory_store self)) in
  let allowed := Z.of_nat (length kept) <? limit in
  let mid :=
    if float_overflows period then timestamps_of k (memory_store self)
    else if String.eqb key k then (if allowed then kept ++ [now] else kept)
    else timestamps_of k (memory_store self) in
  (timestamps_of k (memory_store self') = mid \/
   timestamps_of k (memory_store self') = newer_than (now_sweep - seconds T) mid) /\
  (forall a rem rt, r = Ok (a, rem, rt) -> float_overflows period = false /\ a = allowed).
Proof.
  intros Hown Hcall key kept allowed. cbv zeta.
  destruct (float_overflows period) eqn:Hf.
  { destruct (_check_memory_overflow self client_id limit period now now_sweep Hf)
      as (store0 & Heq & Hsame & _).
    rewrite Heq in Hcall. injection Hcall as <- <-. split; [|done].
    left. apply Hsame. }
  destruct (_check_memory_eq self client_id limit period now now_sweep Hf)
    as (store1 & reset_time & H1 & Hother & _ & Heq).
  fold key kept allowed in H1, Hother, Heq.
  set (mid := if String.eqb key k then _ else _).
  assert (Hmid : timestamps_of k store1 = mid).
  { subst mid. destruct (String.eqb key k) eqn:E.
    - apply String.eqb_eq in E as <-. exact H1.
    - apply String.eqb_neq in E. apply Hother. congruence. }
  rewrite Heq in Hcall. destruct (sweep_due now).
  - destruct (_clean_memory_store _ now_sweep) as [s [u|e]] eqn:E;
      injection Hcall as <- <-;
      (split; [|by intros a rem rt [= -> _ _]]);
      rewrite <- Hmid;
      apply (_clean_memory_store_timestamps _ _ _ _ k T Hown E).
  - injection Hcall as <- <-. split; [by left|]. by intros a rem rt [= -> _ _].
Qed.

(* ===================================================================== *)
(** * Keys are injective *)
(* ===================================================================== *)

Lemma join_split sep s : join sep (split sep s) = s.
Proof.
  induction s as [|c s IH]; [done|]. simpl split.
  destruct (Ascii.eqb c sep) eqn:E.
  - apply Ascii.eqb_eq in E as ->.
    destruct (split sep s) as [|p ps] eqn:Es; [by apply split_nonempty in Es|].
    change (join sep (EmptyString :: p :: ps)) with (String sep (join sep (p :: ps))).
    by rewrite IH.
  - destruct (split sep s) as [|p ps] eqn:Es; [by apply split_nonempty in Es|].
    rewrite <- IH. simpl. by destruct ps.
Qed.

Lemma split_inj sep s1 s2 : split sep s1 = split sep s2 -> s1 = s2.
Proof.
  intros H. rewrite <- (join_split sep s1), <- (join_split sep s2). by rewrite H.
Qed.

Lemma key_inj c1 p1 c2 p2 :
  c1 +:+ ":" +:+ str p1 = c2 +:+ ":" +:+ str p2 -> c1 = c2 /\ p1 = p2.
Proof.
  intros H. apply (f_equal (split ":")) in H. rewrite !split_key in H.
  apply app_inj_tail in H as [Hc Hp]. split.
  - by apply (split_inj ":").
  - apply (f_equal int) in Hp. rewrite !int_str in Hp. by injection Hp.
Qed.

Lemma key_eqb c1 p1 c2 p2 :
  String.eqb (c1 +:+ ":" +:+ str p1) (c2 +:+ ":" +:+ str p2) =
  String.eqb c1 c2 && (p1 =? p2).
Proof.
  destruct (String.eqb (c1 +:+ ":" +:+ str p1) (c2 +:+ ":" +:+ str p2)) eqn:E.
  - apply String.eqb_eq, key_inj in E as [-> ->].
    by rewrite String.eqb_refl, Z.eqb_refl.
  - destruct (String.eqb c1 c2) eqn:Ec; [|done].
    destruct (p1 =? p2) eqn:Ep; [|done].
    apply String.eqb_eq in Ec as ->. apply Z.eqb_eq in Ep as ->.
    by rewrite String.eqb_refl in E.
Qed.

(* ===================================================================== *)
(** * The sliding window over a run *)
(* ===================================================================== *)

Lemma in_window_app T t l1 l2 :
  in_window T t (l1 ++ l2) = in_window T t l1 ++ in_window T t l2.
Proof. unfold in_window. apply List.filter_app. Qed.

Lemma in_window_le_newer T t l :
  (length (in_window T t l) <= length (newer_than (t - seconds T) l))%nat.
Proof.
  unfold in_window, newer_than. induction l as [|x l IH]; simpl; [done|].
  destruct (t - seconds T <? x); simpl; [|done].
  destruct (x <=? t); simpl; lia.
Qed.

Lemma in_window_all_le T t l :
  Forall (fun x => x <= t) l -> in_window T t l = newer_than (t - seconds T) l.
Proof.
  unfold in_window, newer_than. induction 1 as [|x l Hx _ IH]; simpl; [done|].
  apply Z.leb_le in Hx. by rewrite Hx, andb_true_r, IH.
Qed.

Lemma window_invariant_init client_id T L store t :
  0 <= L -> window_invariant client_id T L store [] t.
Proof.
  intros HL. repeat split; [constructor | simpl; lia | simpl; lia].
Qed.

(** One call keeps the invariant, for whatever client it is made. *)
Lemma window_invariant_step client_id T L self adm t
    client_id0 limit period now now_sweep self' r :
  window_invariant client_id T L (memory_store self) adm t ->
  t <= now -> now <= now_sweep ->
  (client_id0 = client_id -> period = T -> limit <= L) ->
  _check_memory self client_id0 limit period now now_sweep = (self', r) ->
  window_invariant client_id T L (memory_store self')
    (adm ++ (if String.eqb client_id0 client_id && (period =? T)
             then match r with Ok (true, _, _) => [now] | _ => [] end
             else []))
    now_sweep.
Proof.
  intros (Hle & Hstore & Hwin) Ht Hnow Hlimit Hcall.
  destruct (_check_memory_timestamps self client_id0 limit period now now_sweep
              self' r (client_id +:+ ":" +:+ str T) T (key_period_own client_id T) Hcall) as [Hts Hallowed].
  cbv zeta in Hts, Hallowed. rewrite key_eqb in Hts.
  set (same := String.eqb client_id0 client_id && (period =? T)) in *.
  set (kept := newer_than (now - seconds period)
                 (timestamps_of (client_id0 +:+ ":" +:+ str period) (memory_store self))) in *.
  set (allowed := Z.of_nat (length kept) <? limit) in *.
  set (new := if same then match r with Ok (true, _, _) => [now] | _ => [] end else []).
  destruct (float_overflows period) eqn:Hf.
  { (* the call raised before it read the clock against the window *)
    assert (Hnone : new = []).
    { subst new. destruct same; [|done].
      destruct r as [[[[] rem] rt]|e]; try done.
      by destruct (Hallowed true rem rt eq_refl). }
    rewrite Hnone, app_nil_r. split; [|split; [|exact Hwin]].
    - eapply Forall_impl; [exact Hle|]. simpl. intros x Hx. lia.
    - intros cutoff Hc. destruct Hts as [-> | ->].
      + apply Hstore. lia.
      + rewrite newer_than_twice by done. apply Hstore. lia. }
  assert (Hallowed' : forall a rem rt, r = Ok (a, rem, rt) -> a = allowed)
    by (intros a rem rt Hr; by apply (Hallowed a rem rt)).
  clear Hallowed. rename Hallowed' into Hallowed.
  set (mid := if same then (if allowed then kept ++ [now] else kept)
              else timestamps_of (client_id +:+ ":" +:+ str T) (memory_store self)) in *.
  (* beyond a live cutoff the store is [mid] *)
  assert (Hcut : forall cutoff, now_sweep - seconds T <= cutoff ->
            newer_than cutoff (timestamps_of (client_id +:+ ":" +:+ str T) (memory_store self')) =
            newer_than cutoff mid).
  { intros cutoff Hc. destruct Hts as [-> | ->]; [done|]. by apply newer_than_twice. }
  (* the key of the call is this key *)
  assert (Hsame : same = true ->
            client_id0 = client_id /\ period = T /\
            kept = newer_than (now - seconds T) (timestamps_of (client_id +:+ ":" +:+ str T) (memory_store self))).
  { subst same. intros H. apply andb_true_iff in H as [Hc Hp].
    apply String.eqb_eq in Hc. apply Z.eqb_eq in Hp. subst. done. }
  (* a new accepted reading is the current one, and the call was allowed *)
  assert (Hnew : new = [] \/ (new = [now] /\ same = true /\ allowed = true)).
  { subst new. destruct same; [|by left].
    destruct r as [[[[] rem] rt]|e]; try by left.
    right. split; [done|]. split; [done|].
    symmetry. by apply (Hallowed true rem rt). }
  split; [|split].
  - apply Forall_app. split.
    + eapply Forall_impl; [exact Hle|]. simpl. intros x Hx. lia.
    + destruct Hnew as [-> | (-> & _ & _)]; repeat constructor. lia.
  - intros cutoff Hc. rewrite (Hcut cutoff Hc), newer_than_app, length_app.
    assert (Hold : (length (newer_than cutoff adm) <=
                    length (newer_than cutoff (timestamps_of (client_id +:+ ":" +:+ str T) (memory_store self))))%nat)
      by (apply Hstore; lia).
    destruct Hnew as [-> | (-> & Hs & Ha)].
    + simpl. rewrite Nat.add_0_r. subst mid.
      destruct same eqn:Es; [|done].
      destruct (Hsame eq_refl) as (_ & -> & Hk).
      assert (Hkept : newer_than cutoff kept =
                      newer_than cutoff (timestamps_of (client_id +:+ ":" +:+ str T) (memory_store self))).
      { rewrite Hk. apply newer_than_twice. lia. }
      destruct allowed; rewrite ?newer_than_app, ?length_app, Hkept; lia.
    + subst mid. rewrite Hs, Ha.
      destruct (Hsame Hs) as (_ & -> & Hk).
      rewrite newer_than_app, length_app.
      replace (newer_than cutoff kept)
        with (newer_than cutoff (timestamps_of (client_id +:+ ":" +:+ str T) (memory_store self))).
      * lia.
      * rewrite Hk. symmetry. apply newer_than_twice. lia.
  - intros t'. rewrite in_window_app, length_app.
    destruct Hnew as [-> | (-> & Hs & Ha)].
    + simpl. rewrite Nat.add_0_r. apply Hwin.
    + destruct (Hsame Hs) as (Hc & Hp & Hk).
      pose proof (Hlimit Hc Hp) as HL.
      subst allowed. apply Z.ltb_lt in Ha.
      unfold in_window at 2. simpl.
      destruct ((t' - seconds T <? now) && (now <=? t')) eqn:E; simpl.
      * apply andb_true_iff in E as [E1 E2].
        apply Z.ltb_lt in E1. apply Z.leb_le in E2.
        pose proof (in_window_le_newer T t' adm) as H1.
        pose proof (newer_than_length_mono (now - seconds T) (t' - seconds T) adm
                      ltac:(lia)) as H2.
        pose proof (Hstore (now - seconds T) ltac:(lia)) as H3.
        rewrite <- Hk in H3. lia.
      * rewrite Nat.add_0_r. apply Hwin.
Qed.

Lemma accepted_ext self1 self2 client_id T outcomes :
  default_period self1 = default_period self2 ->
  accepted self1 client_id T outcomes = accepted self2 client_id T outcomes.
Proof.
  intros H. induction outcomes as [|[c r] outcomes IH]; simpl; [done|].
  by rewrite IH, H.
Qed.

Lemma accepted_cons self client_id T c r outcomes :
  accepted self client_id T ((c, r) :: outcomes) =
  (if String.eqb (call_client c) client_id
      && (py_or (call_period c) (default_period self) =? T)
   then match r with Ok (true, _, _) => [call_now c] | _ => [] end
   else []) ++ accepted self client_id T outcomes.
Proof.
  simpl. destruct (_ && _); [|done].
  by destruct r as [[[[] rem] rt]|e].
Qed.

Lemma run_calls_invariant client_id T L calls :
  forall self adm t,
    window_invariant client_id T L (memory_store self) adm t ->
    clock_monotone t calls ->
    (forall c, In c calls -> call_client c = client_id ->
       py_or (call_period c) (default_period self) = T ->
       py_or (call_limit c) (default_limit self) <= L) ->
    exists t',
      window_invariant client_id T L (memory_store (fst (run_calls self calls)))
        (adm ++ accepted self client_id T (snd (run_calls self calls))) t'.
Proof.
  induction calls as [|c calls IH]; intros self adm t Hinv Hclock Hlimit.
  - simpl. rewrite app_nil_r. by exists t.
  - destruct Hclock as (Ht & Hnow & Hclock). cbn [run_calls].
    destruct (_check_memory self (call_client c) _ _ (call_now c) (call_now_sweep c))
      as [self1 r] eqn:Hcall.
    destruct (_check_memory_defaults _ _ _ _ _ _ _ _ Hcall) as (Hdl & Hdp & _).
    pose proof (window_invariant_step client_id T L self adm t _ _ _ _ _ _ _
                  Hinv Ht Hnow (Hlimit c (or_introl eq_refl)) Hcall) as Hstep.
    destruct (IH self1 _ _ Hstep Hclock) as [t' Ht'].
    { intros c' Hc'. rewrite Hdl, Hdp. apply Hlimit. by right. }
    destruct (run_calls self1 calls) as [self2 rs] eqn:Hrun.
    exists t'. cbn [fst snd] in *.
    rewrite accepted_cons, app_assoc.
    by rewrite (accepted_ext self self1) by done.
Qed.

(** X1.  The admission bound of the sliding window.  On the in-memory backend,
    from any state of the limiter and over any sequence of calls whose
    clock does not run backwards, made for any clients, if the calls for
    [client_id] with period [T] ask for a limit of at most [L], then every
    window of [T] seconds [(t - T, t]] holds at most [L] accepted calls of
    that client. *)
Theorem accepted_per_window
    (self : RateLimiter) (calls : list Call) (client_id : string) (T L t0 : Z) :
  0 < L ->
  clock_monotone t0 calls ->
  (forall c, In c calls -> call_client c = client_id ->
     py_or (call_period c) (default_period self) = T ->
     py_or (call_limit c) (default_limit self) <= L) ->
  forall t,
    Z.of_nat (length (in_window T t
                (accepted self client_id T (snd (run_calls self calls))))) <= L.
Proof.
  intros HL Hclock Hlimit t.
  destruct (run_calls_invariant client_id T L calls self [] t0) as [t' (_ & _ & H)];
    [apply window_invariant_init; lia | done | done |].
  apply H.
Qed.

(** X2.  A call that returns while [L] accepted calls of the client lie
    within [T] seconds behind it returns [allowed = False]. *)
Corollary full_window_rejects
    (self : RateLimiter) (calls : list Call) (c : Call) (T L t0 : Z)
    (r : result (bool * Z * Z)) :
  0 < L ->
  clock_monotone t0 (calls ++ [c]) ->
  (forall c', In c' (calls ++ [c]) -> call_client c' = call_client c ->
     py_or (call_period c') (default_period self) = T ->
     py_or (call_limit c') (default_limit self) <= L) ->
  py_or (call_period c) (default_period self) = T ->
  Z.of_nat (length (in_window T (call_now c)
              (accepted self (call_client c) T (snd (run_calls self calls))))) = L ->
  last (snd (run_calls self (calls ++ [c]))) = Some (c, r) ->
  forall rem rt, r <> Ok (true, rem, rt).
Proof.
  intros HL Hclock Hlimit HT Hfull Hlast rem rt ->.
  assert (Hbound : Z.of_nat (length (in_window T (call_now c)
                      (accepted self (call_client c) T
                         (snd (run_calls self (calls ++ [c])))))) <= L).
  { destruct (run_calls_invariant (call_client c) T L (calls ++ [c]) self [] t0)
      as [t' (_ & _ & H)]; [apply window_invariant_init; lia | done | done |].
    apply H. }
  assert (Hrun : forall s, snd (run_calls s (calls ++ [c])) =
            snd (run_calls s calls) ++
            [(c, snd (_check_memory (fst (run_calls s calls)) (call_client c)
                        (py_or (call_limit c) (default_limit (fst (run_calls s calls))))
                        (py_or (call_period c) (default_period (fst (run_calls s calls))))
                        (call_now c) (call_now_sweep c)))]).
  { clear. induction calls as [|c0 calls IH]; intros s; cbn [run_calls app].
    - by destruct (_check_memory _ _ _ _ _ _).
    - destruct (_check_memory s _ _ _ _ _) as [s1 r1].
      specialize (IH s1).
      destruct (run_calls s1 (calls ++ [c])) as [s2 rs2].
      destruct (run_calls s1 calls) as [s3 rs3]. cbn [fst snd] in *.
      by rewrite IH. }
  rewrite Hrun in Hlast, Hbound. rewrite last_snoc in Hlast.
  injection Hlast as Hr.
  assert (Hadm : forall l1 l2, accepted self (call_client c) T (l1 ++ l2) =
            accepted self (call_client c) T l1 ++ accepted self (call_client c) T l2).
  { clear. intros l1 l2. induction l1 as [|[c1 r1] l1 IH]; [done|].
    cbn [app]. by rewrite !accepted_cons, IH, app_assoc. }
  rewrite Hadm, in_window_app, length_app in Hbound.
  rewrite Hr in Hbound. rewrite accepted_cons in Hbound.
  rewrite String.eqb_refl, HT, Z.eqb_refl in Hbound.
  cbn [andb app accepted] in Hbound.
  change (in_window T (call_now c) [call_now c])
    with (if (call_now c - seconds T <? call_now c) && (call_now c <=? call_now c)
          then [call_now c] else []) in Hbound.
  destruct ((call_now c - seconds T <? call_now c) && (call_now c <=? call_now c)) eqn:E';
    [simpl in Hbound; lia|].
  apply andb_false_iff in E' as [E'|E'].
  - apply Z.ltb_ge in E'. unfold seconds in E'.
    pose proof ticks_per_second_pos.
    assert (T <= 0) by nia.
    (* a window of no length holds no reading *)
    assert (Hempty : in_window T (call_now c)
              (accepted self (call_client c) T (snd (run_calls self calls))) = []).
    { unfold in_window. generalize (accepted self (call_client c) T (snd (run_calls self calls))).
      intros l. induction l as [|x l IHl]; simpl; [done|].
      destruct ((call_now c - seconds T <? x) && (x <=? call_now c)) eqn:Ex; [|done].
      apply andb_true_iff in Ex as [E1 E2].
      apply Z.ltb_lt in E1. apply Z.leb_le in E2. unfold seconds in E1. nia. }
    rewrite Hempty in Hfull. simpl in Hfull. lia.
  - apply Z.leb_gt in E'. lia.
Qed.

(* ===================================================================== *)
(** * Calls that return *)
(* ===================================================================== *)

Lemma clean_loop_returns keys now store ktd :
  (forall k, In k keys -> exists p, key_period k = Ok p) ->
  exists store' ktd', clean_loop keys now store ktd = (store', Ok ktd').
Proof.
  revert store ktd. induction keys as [|key rest IH]; intros store ktd Hparse.
  - simpl. eauto.
  - rewrite clean_loop_cons. destruct (Hparse key (or_introl eq_refl)) as [p ->].
    cbv zeta. apply IH. intros k Hk. apply Hparse. by right.
Qed.

Lemma clean_loop_parses keys now store ktd store' ktd' :
  clean_loop keys now store ktd = (store', Ok ktd') ->
  forall k, In k keys -> exists p, key_period k = Ok p.
Proof.
  revert store ktd. induction keys as [|key rest IH]; intros store ktd Hloop k Hk; [done|].
  rewrite clean_loop_cons in Hloop.
  destruct (key_period key) as [p|e] eqn:E; [|done].
  destruct Hk as [<-|Hk]; [eauto|]. by eapply IH.
Qed.

Lemma clean_loop_keys keys now store ktd store' r :
  clean_loop keys now store ktd = (store', r) ->
  forall k, In k (dict_keys store') -> In k keys \/ In k (dict_keys store).
Proof.
  revert store ktd. induction keys as [|key rest IH]; intros store ktd Hloop k Hk.
  - injection Hloop as <- _. by right.
  - rewrite clean_loop_cons in Hloop.
    destruct (key_period key) as [p|e] eqn:E.
    + destruct (IH _ _ Hloop k Hk) as [H|H]; [left; by right|].
      apply dict_keys_set in H as [->|H]; [left; by left | by right].
    + injection Hloop as <- _. by right.
Qed.

Lemma fold_dict_del_keys (ktd : list string) (store : dict (list Z)) k :
  In k (dict_keys (fold_left (fun d key => dict_del key d) ktd store)) ->
  In k (dict_keys store).
Proof.
  revert store. induction ktd as [|k0 ktd IH]; intros store H; [done|].
  simpl in H. apply IH in H. by eapply dict_keys_del.
Qed.

Lemma _clean_memory_store_keys self now self' r k :
  _clean_memory_store self now = (self', r) ->
  In k (dict_keys (memory_store self')) -> In k (dict_keys (memory_store self)).
Proof.
  unfold _clean_memory_store.
  destruct (clean_loop _ now (memory_store self) []) as [store [ktd|e]] eqn:E;
    intros [= <- _]; simpl; intros H.
  - apply fold_dict_del_keys in H.
    by destruct (clean_loop_keys _ _ _ _ _ _ E k H).
  - by destruct (clean_loop_keys _ _ _ _ _ _ E k H).
Qed.

Lemma _clean_memory_store_returns self now :
  keys_parse (memory_store self) ->
  exists self', _clean_memory_store self now = (self', Ok tt).
Proof.
  intros H. unfold _clean_memory_store.
  destruct (clean_loop_returns (dict_keys (memory_store self)) now (memory_store self) [] H)
    as (store' & ktd' & ->). eauto.
Qed.

Lemma newer_than_max c1 c2 l :
  newer_than c2 (newer_than c1 l) = newer_than (Z.max c1 c2) l.
Proof.
  unfold newer_than. induction l as [|x l IH]; simpl; [done|].
  destruct (c1 <? x) eqn:E1; simpl; rewrite IH;
    destruct (c2 <? x) eqn:E2; destruct (Z.max c1 c2 <? x) eqn:E3; try done;
    rewrite ?Z.ltb_lt, ?Z.ltb_ge in *; lia.
Qed.

(** A call for a client without [":"] and with a period within the
    doubles, on a store whose keys all parse, returns: it tells whether fewer than [limit] timestamps are left in the
    window, and leaves under the client's key the timestamps of the window
    (trimmed again by the sweep when it ran), with the current reading when
    the call is accepted. *)
Theorem _check_memory_returns
    (self : RateLimiter) (client_id : string) (limit period now now_sweep : Z) :
  keys_parse (memory_store self) ->
  colon_free client_id ->
  float_overflows period = false ->
  let key := client_id +:+ ":" +:+ str period in
  let kept := newer_than (now - seconds period) (timestamps_of key (memory_store self)) in
  let allowed := Z.of_nat (length kept) <? limit in
  let recorded := if allowed then kept ++ [now] else kept in
  exists self' reset_time,
    _check_memory self client_id limit period now now_sweep =
      (self', Ok (allowed, Z.max 0 (limit - Z.of_nat (length recorded)), reset_time)) /\
    keys_parse (memory_store self') /\
    timestamps_of key (memory_store self') =
      (if sweep_due now then newer_than (now_sweep - seconds period) recorded
       else recorded).
Proof.
  intros Hparse Hfree Hf key kept allowed recorded.
  destruct (_check_memory_eq self client_id limit period now now_sweep Hf)
    as (store1 & reset_time & H1 & _ & Hkeys & ->).
  fold key kept allowed recorded in H1, Hkeys |- *.
  assert (Hkey : key_period key = Ok period) by (by apply key_period_colon_free).
  assert (Hparse1 : keys_parse store1).
  { intros k Hk. apply Hkeys in Hk as [->|Hk]; [eauto | by apply Hparse]. }
  destruct (sweep_due now).
  - destruct (_clean_memory_store_returns (set_memory_store self store1) now_sweep Hparse1)
      as [self' Hclean].
    rewrite Hclean. exists self', reset_time. split; [done|]. split.
    + intros k Hk. apply Hparse1.
      by apply (_clean_memory_store_keys _ _ _ _ _ Hclean).
    + rewrite (_clean_memory_store_ok _ _ _ _ key period Hclean Hkey).
      simpl. by rewrite H1.
  - exists (set_memory_store self store1), reset_time. done.
Qed.

(* ===================================================================== *)
(** * The limiter on a client identity with a colon *)
(* ===================================================================== *)

(** C1.  The code at a client whose identity holds [":"], the IPv6
    loopback address, with [limit = 1] and [period = 60]: the first call, at a time when no
    sweep is due, is accepted; the second call comes 35 s later, within
    the window, at a time when the sweep is due, and does not return
    [allowed = False]: it raises [ValueError] out of
    [_clean_memory_store], whose [_, period = key.split(":")] finds four
    parts in ["::1:60"]. *)
Theorem colon_client_raises_on_sweep :
  let self0 := RateLimiter_init None false 100 60 in
  let db := {| zsets := ∅; ttl := ∅ |} in
  let t1 := seconds 1700000005 in
  let t2 := seconds 1700000040 + 100 in
  let first := check self0 db NoFault "::1" (Some 1) (Some 60) t1 t1 in
  let second := check (fst (fst first)) db NoFault "::1" (Some 1) (Some 60) t2 t2 in
  snd first = Ok (true, 0, 1700000065) /\
  t2 - t1 < seconds 60 /\
  sweep_due t2 = true /\
  split ":" ("::1" +:+ ":" +:+ str 60) = [""; ""; "1"; "60"] /\
  snd second = Raise (ValueError "too many values to unpack (expected 2)") /\
  timestamps_of "::1:60" (memory_store (fst (fst second))) = [t1].
Proof. vm_compute. repeat split; reflexivity. Qed.

(* ===================================================================== *)
(** * What a rejected call records *)
(* ===================================================================== *)

Lemma zset_insert_In score l : In score (zset_insert score l).
Proof.
  induction l as [|x l IH]; simpl; [by left|].
  destruct (score <? x); [by left|].
  destruct (score =? x) eqn:E; [|by right].
  apply Z.eqb_eq in E as ->. by left.
Qed.

(** The pipeline of [_check_redis] on the server. *)
Lemma zset_of_insert key l m t :
  zset_of key {| zsets := <[key := l]> m; ttl := t |} = l.
Proof. unfold zset_of. simpl. by rewrite lookup_insert_eq. Qed.

Lemma zset_of_delete key m t :
  zset_of key {| zsets := delete key m; ttl := t |} = [].
Proof. unfold zset_of. simpl. by rewrite lookup_delete_eq. Qed.

Lemma zset_insert_cons score l : exists x l', zset_insert score l = x :: l'.
Proof.
  destruct l as [|y l]; simpl; [eauto|].
  destruct (score <? y); [eauto|]. destruct (score =? y); eauto.
Qed.

(** The server after the pipeline: the client's sorted set is gone when
    the period is 0 or less, and otherwise holds the scores the trim left
    and the clock reading, with the period as its time-to-live. *)
Lemma redis_execute_pipeline db key cutoff now period :
  let new := zset_insert now (zset_trim cutoff (zset_of key db)) in
  exists removed added,
    redis_execute [ZREMRANGEBYSCORE key 0 cutoff; ZADD key now; ZCARD key;
                   EXPIRE key period] db =
      (if period <=? 0
       then {| zsets := delete key (zsets db); ttl := delete key (ttl db) |}
       else {| zsets := <[key := new]> (zsets db);
               ttl := <[key := period]> (ttl db) |},
       [removed; added; Z.of_nat (length new); 1]).
Proof.
  intros new. cbn [redis_execute].
  (* ZREMRANGEBYSCORE *)
  set (kept := zset_trim cutoff (zset_of key db)) in *.
  assert (H1 : exists db1,
            redis_apply (ZREMRANGEBYSCORE key 0 cutoff) db =
              (db1, Z.of_nat (length (zset_of key db)) - Z.of_nat (length kept)) /\
            zset_of key db1 = kept /\
            (forall l, <[key := l]> (zsets db1) = <[key := l]> (zsets db)) /\
            delete key (zsets db1) = delete key (zsets db) /\
            (forall p, <[key := p]> (ttl db1) = <[key := p]> (ttl db)) /\
            delete key (ttl db1) = delete key (ttl db)).
  { cbn [redis_apply].
    change (List.filter (fun s => negb ((0 <=? s) && (s <=? cutoff))) (zset_of key db))
      with kept.
    destruct kept as [|x kept'] eqn:Ek; eexists; (split; [reflexivity|]); cbn [zsets ttl].
    - rewrite zset_of_delete. repeat split; intros;
        by rewrite ?insert_delete_eq, ?delete_delete_eq.
    - rewrite zset_of_insert. repeat split; intros;
        by rewrite ?insert_insert_eq, ?delete_insert_eq. }
  destruct H1 as (db1 & -> & Hz1 & Hins & Hdel & Htins & Htdel).
  (* ZADD, ZCARD *)
  cbn [redis_apply zsets ttl]. rewrite Hz1, Hins. fold new.
  rewrite !zset_of_insert.
  (* EXPIRE *)
  destruct (zset_insert_cons now kept) as (x & l' & Hnew). fold new in Hnew.
  rewrite Hnew. cbn [zsets ttl].
  destruct (period <=? 0); eexists _, _.
  - by rewrite delete_insert_eq, <- Hdel, Htdel.
  - by rewrite Htins.
Qed.

(** When the [try] block of [_check_redis] returns, the server has run the
    pipeline: with a positive period the clock reading is in the client's
    sorted set, whatever the verdict, and with a period of 0 or less the
    set is gone. *)
Lemma _check_redis_try_records db fault client_id limit period now db' r :
  _check_redis_try db fault client_id limit period now = (db', Ok r) ->
  float_overflows period = false /\
  zset_of ("rate_limit:" +:+ client_id +:+ ":" +:+ str period) db' =
    (if period <=? 0 then []
     else zset_insert now
            (zset_trim (now - seconds period)
               (zset_of ("rate_limit:" +:+ client_id +:+ ":" +:+ str period) db))).
Proof.
  unfold _check_redis_try.
  set (key := "rate_limit:" +:+ client_id +:+ ":" +:+ str period).
  destruct (redis_execute_pipeline db key (now - seconds period) now period)
    as (removed & added & Hexec).
  cbv zeta in Hexec.
  assert (Hset : zset_of key
            (if period <=? 0
             then {| zsets := delete key (zsets db); ttl := delete key (ttl db) |}
             else {| zsets := <[key := zset_insert now
                                  (zset_trim (now - seconds period) (zset_of key db))]>
                                (zsets db);
                     ttl := <[key := period]> (ttl db) |}) =
            (if period <=? 0 then []
             else zset_insert now (zset_trim (now - seconds period) (zset_of key db)))).
  { destruct (period <=? 0); [apply zset_of_delete | apply zset_of_insert]. }
  destruct fault as [| |i| | |]; try done;
    (destruct (float_overflows period); [done|]); cbv zeta;
    try (destruct (queue_fails _ _); [done|]); try done;
    rewrite Hexec.
  all: change ([removed; added;
                Z.of_nat (length (zset_insert now
                  (zset_trim (now - seconds period) (zset_of key db)))); 1] !! 2%nat)
         with (Some (Z.of_nat (length (zset_insert now
                  (zset_trim (now - seconds period) (zset_of key db)))))).
  all: cbv iota beta.
  all: try done.
  all: match goal with |- context [0 <? ?x] => destruct (0 <? x) end; try done.
  all: intros [= <- _]; split; [done | exact Hset].
Qed.

Lemma _clean_memory_store_parses self now self' u :
  _clean_memory_store self now = (self', Ok u) ->
  keys_parse (memory_store self).
Proof.
  unfold _clean_memory_store.
  destruct (clean_loop _ now (memory_store self) []) as [store [ktd|e]] eqn:E; [|done].
  intros _ k Hk. by eapply clean_loop_parses.
Qed.

(** C2, as stated, fails on the external-store backend: with a limit of 1,
    a second call 5 s after the first returns [allowed = False], and its
    clock reading is in the client's sorted set all the same. *)
Lemma redis_records_rejected_call :
  let self := {| redis_client := true; default_limit := 1; default_period := 60;
                 memory_store := [] |} in
  let t1 := seconds 1700000005 in
  let t2 := seconds 1700000010 in
  let first := check self {| zsets := ∅; ttl := ∅ |} NoFault "10.0.0.1" None None t1 t1 in
  let second := check self (snd (fst first)) NoFault "10.0.0.1" None None t2 t2 in
  snd first = Ok (true, 0, 1700000065) /\
  zset_of "rate_limit:10.0.0.1:60" (snd (fst first)) = [t1] /\
  snd second = Ok (false, 0, 1700000065) /\
  zset_of "rate_limit:10.0.0.1:60" (snd (fst second)) = [t1; t2] /\
  zset_of "rate_limit:10.0.0.1:60" (snd (fst second)) <>
    zset_trim (t2 - seconds 60) (zset_of "rate_limit:10.0.0.1:60" (snd (fst first))).
Proof. vm_compute. repeat split; try reflexivity. discriminate. Qed.

(** C2, amended.  On the in-memory backend a call that returns
    [allowed = False] records nothing: the client's timestamps after the
    call are those before it without the expired ones, not newer than the
    clock reading minus the period (the later reading of the sweep, when
    it ran).  On the external-store backend the clock reading is added
    before the count, so with a positive period a call that returns
    [allowed = False] leaves the client's sorted set as it was, without
    the expired scores and with the clock reading of the call; with a
    period of 0 or less the final [EXPIRE] deletes the client's key, and
    nothing is left of the set. *)
Theorem rejected_call_records :
  (forall (self self' : RateLimiter) (db db' : Redis) (fault : redis_fault)
          (client_id : string) (limit period : option Z) (now now_sweep rem rt : Z),
     redis_client self = false ->
     check self db fault client_id limit period now now_sweep =
       (self', db', Ok (false, rem, rt)) ->
     let P := py_or period (default_period self) in
     let key := client_id +:+ ":" +:+ str P in
     db' = db /\
     timestamps_of key (memory_store self') =
       newer_than ((if sweep_due now then Z.max now now_sweep else now) - seconds P)
         (timestamps_of key (memory_store self))) /\
  (forall (self self' : RateLimiter) (db db' : Redis) (fault : redis_fault)
          (client_id : string) (limit period : option Z) (now now_exc rem rt : Z),
     redis_client self = true ->
     check self db fault client_id limit period now now_exc =
       (self', db', Ok (false, rem, rt)) ->
     let P := py_or period (default_period self) in
     let key := "rate_limit:" +:+ client_id +:+ ":" +:+ str P in
     self' = self /\
     (0 < P ->
      zset_of key db' = zset_insert now (zset_trim (now - seconds P) (zset_of key db)) /\
      In now (zset_of key db')) /\
     (P <= 0 -> zset_of key db' = [])).
Proof.
  split.
  - intros self self' db db' fault client_id limit period now now_sweep rem rt
      Hmem Hcheck P key.
    unfold check in Hcheck. rewrite Hmem in Hcheck. fold P in Hcheck.
    destruct (_check_memory self client_id _ P now now_sweep) as [s r] eqn:Hcall.
    injection Hcheck as -> -> ->. split; [done|].
    pose proof (_check_memory_in_range _ _ _ _ _ _ _ _ Hcall) as Hf.
    destruct (_check_memory_eq self client_id (py_or limit (default_limit self)) P
                now now_sweep Hf) as (store1 & reset_time & H1 & _ & Hkeys & Heq).
    subst key. rewrite Heq in Hcall. clear Heq.
    set (key := client_id +:+ ":" +:+ str P) in *.
    set (kept := newer_than (now - seconds P) (timestamps_of key (memory_store self))) in *.
    destruct (sweep_due now).
    + destruct (_clean_memory_store _ now_sweep) as [s0 [u|e]] eqn:Hclean;
        [|discriminate Hcall].
      injection Hcall as -> Ha _ _. rewrite Ha in H1.
      pose proof (_clean_memory_store_parses _ _ _ _ Hclean) as Hparse.
      destruct (Hparse key) as [p Hp]; [apply Hkeys; by left|].
      pose proof (key_period_own _ _ _ Hp) as ->.
      rewrite (_clean_memory_store_ok _ _ _ _ key P Hclean Hp). simpl.
      rewrite H1. subst kept. rewrite newer_than_max. f_equal. lia.
    + injection Hcall as <- Ha _ _. rewrite Ha in H1. simpl. by rewrite H1.
  - intros self self' db db' fault client_id limit period now now_exc rem rt
      Hredis Hcheck P key.
    unfold check, _check_redis in Hcheck. rewrite Hredis in Hcheck. fold P in Hcheck.
    destruct (_check_redis_try db fault client_id _ P now) as [d [r|e]] eqn:Htry;
      [|discriminate Hcheck].
    injection Hcheck as -> -> ->. split; [done|].
    apply _check_redis_try_records in Htry as [_ Htry]. fold key in Htry.
    split.
    + intros HP. apply Z.leb_gt in HP. rewrite HP in Htry.
      split; [done|]. rewrite Htry. apply zset_insert_In.
    + intros HP. apply Z.leb_le in HP. by rewrite HP in Htry.
Qed.

Lemma rejected_call_records_witness :
  timestamps_of "10.0.0.1:60"
    (memory_store
       (fst (fst (check {| redis_client := false; default_limit := 1;
                           default_period := 60;
                           memory_store := [("10.0.0.1:60", [seconds 1700000005])] |}
                    {| zsets := ∅; ttl := ∅ |} NoFault "10.0.0.1" None None
                    (seconds 1700000010) (seconds 1700000010))))) =
  [seconds 1700000005] /\
  zset_of "rate_limit:10.0.0.1:-5"
    (snd (fst (check {| redis_client := true; default_limit := 1;
                        default_period := 60; memory_store := [] |}
                 {| zsets := {["rate_limit:10.0.0.1:-5" := [seconds 1700000005]]};
                    ttl := ∅ |}
                 NoFault "10.0.0.1" (Some (-1)) (Some (-5))
                 (seconds 1700000010) (seconds 1700000010)))) = [].
Proof.
  split.
  - refine (eq_trans
      (proj2 (proj1 rejected_call_records
         {| redis_client := false; default_limit := 1; default_period := 60;
            memory_store := [("10.0.0.1:60", [seconds 1700000005])] |}
         _ {| zsets := ∅; ttl := ∅ |} _ NoFault "10.0.0.1" None None
         (seconds 1700000010) (seconds 1700000010) 0 1700000065 _ _)) _);
      reflexivity.
  - refine (proj2 (proj2 (proj2 rejected_call_records
         {| redis_client := true; default_limit := 1; default_period := 60;
            memory_store := [] |}
         _ {| zsets := {["rate_limit:10.0.0.1:-5" := [seconds 1700000005]]}; ttl := ∅ |}
         _ NoFault "10.0.0.1" (Some (-1)) (Some (-5))
         (seconds 1700000010) (seconds 1700000010) 0 1700000005 _ _)) _).
    + reflexivity.
    + vm_compute. reflexivity.
    + vm_compute. discriminate.
Defined.

(* ===================================================================== *)
(** * The rate-limiting middleware *)
(* ===================================================================== *)

(** One request through the middleware on the in-memory backend, for a
    client without [":"] in its identity. *)
Lemma dispatch_memory settings limiter db fault request call_next now now2 :
  ENABLE_RATE_LIMITING settings = true ->
  redis_client limiter = false ->
  keys_parse (memory_store limiter) ->
  colon_free (_get_client_id request) ->
  float_overflows (default_period limiter) = false ->
  let L := default_limit limiter in
  let P := default_period limiter in
  let key := _get_client_id request +:+ ":" +:+ str P in
  let kept := newer_than (now - seconds P) (timestamps_of key (memory_store limiter)) in
  let allowed := Z.of_nat (length kept) <? L in
  let recorded := if allowed then kept ++ [now] else kept in
  let remaining := Z.max 0 (L - Z.of_nat (length recorded)) in
  exists limiter' reset_time,
    dispatch settings limiter db fault request call_next now now2 =
      (limiter', db,
       Ok (if allowed then with_rate_headers remaining reset_time (call_next request)
           else too_many_requests remaining reset_time)) /\
    redis_client limiter' = false /\
    default_limit limiter' = L /\
    default_period limiter' = P /\
    keys_parse (memory_store limiter') /\
    timestamps_of key (memory_store limiter') =
      (if sweep_due now then newer_than (now2 - seconds P) recorded else recorded).
Proof.
  intros Hen Hmem Hparse Hfree Hf L P key kept allowed recorded remaining.
  destruct (_check_memory_returns limiter (_get_client_id request) L P now now2
              Hparse Hfree Hf) as (limiter' & reset_time & Hcall & Hparse' & Hts).
  fold key kept allowed recorded remaining in Hcall, Hts.
  destruct (_check_memory_defaults _ _ _ _ _ _ _ _ Hcall) as (Hdl & Hdp & Hrc).
  exists limiter', reset_time. split; [|by rewrite Hrc, Hmem].
  unfold dispatch, check. rewrite Hen, Hmem. cbn [negb py_or].
  fold L P. rewrite Hcall. by destruct allowed.
Qed.

(** The same, when the client's recorded timestamps [l] all lie in the
    window, at the call and at the sweep. *)
Lemma dispatch_in_window settings limiter db fault request call_next now now2 l :
  ENABLE_RATE_LIMITING settings = true ->
  redis_client limiter = false ->
  keys_parse (memory_store limiter) ->
  colon_free (_get_client_id request) ->
  float_overflows (default_period limiter) = false ->
  let L := default_limit limiter in
  let P := default_period limiter in
  let key := _get_client_id request +:+ ":" +:+ str P in
  timestamps_of key (memory_store limiter) = l ->
  now <= now2 -> now2 - seconds P < now ->
  Forall (fun x => now2 - seconds P < x) l ->
  let allowed := Z.of_nat (length l) <? L in
  exists limiter' reset_time,
    dispatch settings limiter db fault request call_next now now2 =
      (limiter', db,
       Ok (if allowed
           then with_rate_headers (Z.max 0 (L - Z.of_nat (length (l ++ [now]))))
                  reset_time (call_next request)
           else too_many_requests (Z.max 0 (L - Z.of_nat (length l))) reset_time)) /\
    redis_client limiter' = false /\
    default_limit limiter' = L /\
    default_period limiter' = P /\
    keys_parse (memory_store limiter') /\
    timestamps_of key (memory_store limiter') = (if allowed then l ++ [now] else l).
Proof.
  intros Hen Hmem Hparse Hfree Hf L P key Hl Hnow Hp Hall allowed.
  destruct (dispatch_memory settings limiter db fault request call_next now now2
              Hen Hmem Hparse Hfree Hf)
    as (limiter' & reset_time & Hd & Hrc & Hdl & Hdp & Hparse' & Hts).
  fold L P key in Hd, Hts, Hdl, Hdp. rewrite Hl in Hd, Hts.
  assert (Hkept : newer_than (now - seconds P) l = l).
  { apply newer_than_all. eapply Forall_impl; [exact Hall|]. simpl. intros x Hx. lia. }
  rewrite Hkept in Hd, Hts. fold allowed in Hd, Hts.
  exists limiter', reset_time. split; [|repeat split; try done].
  - rewrite Hd. by destruct allowed.
  - rewrite Hts. destruct (sweep_due now); [|done].
    apply newer_than_all. destruct allowed; [|done].
    apply Forall_app. split; [done|]. by repeat constructor.
Qed.

(** The scenario of three requests within one second, with a limit of 2
    per 60 s on the in-memory backend, for a client without [":"] in its
    identity: the first two reach the application, whose responses come
    back with [X-RateLimit-Remaining] 1 and 0, and the third is answered
    429 with [X-RateLimit-Remaining: 0]. *)
Theorem three_requests_scenario
    (settings : Settings) (request : Request) (call_next : Request -> Response)
    (t1 t1' t2 t2' t3 t3' : Z) :
  ENABLE_RATE_LIMITING settings = true ->
  RATE_LIMIT_REDIS_URL settings = None ->
  DEFAULT_RATE_LIMIT settings = 2 ->
  DEFAULT_RATE_LIMIT_PERIOD settings = 60 ->
  colon_free (_get_client_id request) ->
  t1 <= t1' /\ t1' <= t2 /\ t2 <= t2' /\ t2' <= t3 /\ t3 <= t3' ->
  t3' < t1 + seconds 1 ->
  exists reset1 reset2 reset3,
    three_requests settings request call_next t1 t1' t2 t2' t3 t3' =
      (Ok (with_rate_headers 1 reset1 (call_next request)),
       Ok (with_rate_headers 0 reset2 (call_next request)),
       Ok {| status_code := 429;
             response_headers :=
               [("X-RateLimit-Remaining", "0"); ("X-RateLimit-Reset", str reset3)];
             content := "Rate limit exceeded. Please try again later." |}).
Proof.
  intros Hen Hurl HL HP Hfree (H1 & H2 & H3 & H4 & H5) Hsec.
  assert (Hs : seconds 1 < seconds 60) by reflexivity.
  unfold three_requests.
  set (db := {| zsets := ∅; ttl := ∅ |}).
  set (limiter0 := middleware_limiter settings true).
  assert (Hrc0 : redis_client limiter0 = false)
    by (unfold limiter0, middleware_limiter, RateLimiter_init; by rewrite Hurl).
  assert (Hdl0 : default_limit limiter0 = 2) by exact HL.
  assert (Hdp0 : default_period limiter0 = 60) by exact HP.
  assert (Hparse0 : keys_parse (memory_store limiter0)) by (intros k []).
  assert (Hf : float_overflows 60 = false) by (vm_compute; reflexivity).
  destruct (dispatch_in_window settings limiter0 db NoFault request call_next t1 t1' []
              Hen Hrc0 Hparse0 Hfree)
    as (limiter1 & reset1 & -> & Hrc1 & Hdl1 & Hdp1 & Hparse1 & Hts1);
    [by rewrite Hdp0 | done | lia | rewrite Hdp0; lia | constructor |].
  rewrite Hdl0, Hdp0 in *. cbn [length app] in Hts1 |- *.
  change (Z.of_nat 0 <? 2) with true in Hts1 |- *. cbv iota in Hts1 |- *.
  destruct (dispatch_in_window settings limiter1 db NoFault request call_next t2 t2' [t1]
              Hen Hrc1 Hparse1 Hfree)
    as (limiter2 & reset2 & -> & Hrc2 & Hdl2 & Hdp2 & Hparse2 & Hts2);
    [by rewrite Hdp1 | by rewrite Hdp1 | lia | rewrite Hdp1; lia
    | rewrite Hdp1; repeat constructor; lia |].
  rewrite Hdl1, Hdp1 in *. cbn [length app] in Hts2 |- *.
  change (Z.of_nat 1 <? 2) with true in Hts2 |- *. cbv iota in Hts2 |- *.
  destruct (dispatch_in_window settings limiter2 db NoFault request call_next t3 t3' [t1; t2]
              Hen Hrc2 Hparse2 Hfree)
    as (limiter3 & reset3 & -> & _);
    [by rewrite Hdp2 | by rewrite Hdp2 | lia | rewrite Hdp2; lia
    | rewrite Hdp2; repeat constructor; lia |].
  rewrite Hdl2. cbn [length].
  change (Z.of_nat 2 <? 2) with false. cbv iota.
  by exists reset1, reset2, reset3.
Qed.

Lemma three_requests_scenario_witness :
  exists reset1 reset2 reset3,
    three_requests
      {| ENABLE_RATE_LIMITING := true; RATE_LIMIT_REDIS_URL := None;
         DEFAULT_RATE_LIMIT := 2; DEFAULT_RATE_LIMIT_PERIOD := 60;
         PROXY_SECRET_KEY := "dev_secret_key"; SERVICE_ROUTES := [] |}
      {| headers := ∅; client := Some "10.0.0.1" |}
      (fun _ => {| status_code := 200; response_headers := []; content := "ok" |})
      (seconds 1700000040) (seconds 1700000040)
      (seconds 1700000040 + 1000) (seconds 1700000040 + 1000)
      (seconds 1700000040 + 2000) (seconds 1700000040 + 2000) =
      (Ok (with_rate_headers 1 reset1
             {| status_code := 200; response_headers := []; content := "ok" |}),
       Ok (with_rate_headers 0 reset2
             {| status_code := 200; response_headers := []; content := "ok" |}),
       Ok {| status_code := 429;
             response_headers :=
               [("X-RateLimit-Remaining", "0"); ("X-RateLimit-Reset", str reset3)];
             content := "Rate limit exceeded. Please try again later." |}).
Proof.
  apply (three_requests_scenario
           {| ENABLE_RATE_LIMITING := true; RATE_LIMIT_REDIS_URL := None;
              DEFAULT_RATE_LIMIT := 2; DEFAULT_RATE_LIMIT_PERIOD := 60;
              PROXY_SECRET_KEY := "dev_secret_key"; SERVICE_ROUTES := [] |}
           {| headers := ∅; client := Some "10.0.0.1" |}
           (fun _ => {| status_code := 200; response_headers := []; content := "ok" |})
           (seconds 1700000040) (seconds 1700000040)
           (seconds 1700000040 + 1000) (seconds 1700000040 + 1000)
           (seconds 1700000040 + 2000) (seconds 1700000040 + 2000));
    try reflexivity.
  - vm_compute. repeat split; discriminate.
Defined.

(** C9.  The code at a client whose identity holds [":"], the IPv6
    loopback address, with a limit of 2 per 60 s on the in-memory backend:
    three requests within one second, the last of which falls in the first
    second of a minute, when the sweep is due.  The first two reach the
    application, with [X-RateLimit-Remaining] 1 and 0; the third is not
    answered 429: the limiter finds the window full and then raises
    [ValueError] out of [_clean_memory_store], whose
    [_, period = key.split(":")] finds four parts in ["::1:60"], and the
    middleware lets the exception through. *)
Theorem three_requests_colon_client_raises :
  let settings :=
    {| ENABLE_RATE_LIMITING := true; RATE_LIMIT_REDIS_URL := None;
       DEFAULT_RATE_LIMIT := 2; DEFAULT_RATE_LIMIT_PERIOD := 60;
       PROXY_SECRET_KEY := "dev_secret_key"; SERVICE_ROUTES := [] |} in
  let request := {| headers := ∅; client := Some "::1" |} in
  let call_next := fun _ : Request =>
    {| status_code := 200; response_headers := []; content := "ok" |} in
  let t1 := seconds 1700000039 + 2097152 in
  let t2 := seconds 1700000039 + 3145728 in
  let t3 := seconds 1700000040 + 100 in
  t1 <= t2 /\ t2 <= t3 /\ t3 < t1 + seconds 1 /\
  _get_client_id request = "::1" /\
  sweep_due t1 = false /\ sweep_due t2 = false /\ sweep_due t3 = true /\
  three_requests settings request call_next t1 t1 t2 t2 t3 t3 =
    (Ok (with_rate_headers 1 1700000099 (call_next request)),
     Ok (with_rate_headers 0 1700000099 (call_next request)),
     Raise (ValueError "too many values to unpack (expected 2)")).
Proof. vm_compute. repeat split; try reflexivity; discriminate. Qed.

(* ===================================================================== *)
(** * Further properties of the in-memory limiter *)
(* ===================================================================== *)

Lemma accepted_per_window_witness :
  let self := RateLimiter_init None false 2 60 in
  let call t := {| call_client := "10.0.0.1"; call_limit := None;
                   call_period := None; call_now := seconds t;
                   call_now_sweep := seconds t |} in
  Z.of_nat (length (in_window 60 (seconds 130)
              (accepted self "10.0.0.1" 60
                 (snd (run_calls self [call 101; call 102; call 103]))))) <= 2.
Proof.
  cbv zeta. apply (accepted_per_window _ _ _ 60 2 0).
  - lia.
  - unfold clock_monotone, call_now, call_now_sweep, seconds, ticks_per_second. lia.
  - intros c Hc _ _. destruct Hc as [<-|[<-|[<-|[]]]]; simpl; lia.
Defined.

Lemma full_window_rejects_witness :
  let self := RateLimiter_init None false 1 60 in
  let call t := {| call_client := "10.0.0.1"; call_limit := None;
                   call_period := None; call_now := seconds t;
                   call_now_sweep := seconds t |} in
  last (snd (run_calls self [call 101; call 102])) = Some (call 102, Ok (false, 0, 161)) /\
  forall rem rt, Ok (false, 0, 161) <> Ok (true, rem, rt).
Proof.
  cbv zeta. split; [vm_compute; reflexivity|].
  apply (full_window_rejects (RateLimiter_init None false 1 60)
           [{| call_client := "10.0.0.1"; call_limit := None;
               call_period := None; call_now := seconds 101;
               call_now_sweep := seconds 101 |}]
           {| call_client := "10.0.0.1"; call_limit := None;
              call_period := None; call_now := seconds 102;
              call_now_sweep := seconds 102 |} 60 1 0).
  - lia.
  - unfold clock_monotone, call_now, call_now_sweep, seconds, ticks_per_second, app. lia.
  - intros c Hc _ _. destruct Hc as [<-|[<-|[]]]; simpl; lia.
  - reflexivity.
  - vm_compute. reflexivity.
  - vm_compute. reflexivity.
Defined.

(** X3.  On the in-memory backend, a run of calls made for clients without
    [":"] in their identity and with periods that a double holds exactly
    (at most [2^53] in absolute value), from a store whose keys all parse
    (the empty store of a new limiter is one), never raises: every call
    returns a verdict, sweeps included, and the keys of the store still
    parse afterwards. *)
Theorem run_calls_returns (self : RateLimiter) (calls : list Call) :
  keys_parse (memory_store self) ->
  Forall (fun c => colon_free (call_client c) /\
                   float_exact (py_or (call_period c) (default_period self))) calls ->
  Forall (fun cr => exists v, snd cr = Ok v) (snd (run_calls self calls)) /\
  keys_parse (memory_store (fst (run_calls self calls))).
Proof.
  intros Hparse Hfree. revert self Hparse Hfree.
  induction calls as [|c calls IH]; intros self Hparse Hfree.
  - split; [constructor | done].
  - apply Forall_cons in Hfree as [[Hc Hp] Hfree]. cbn [run_calls].
    destruct (_check_memory_returns self (call_client c)
                (py_or (call_limit c) (default_limit self))
                (py_or (call_period c) (default_period self))
                (call_now c) (call_now_sweep c) Hparse Hc
                (float_exact_no_overflow _ Hp))
      as (self' & rt & Heq & Hparse' & _).
    rewrite Heq.
    destruct (_check_memory_defaults _ _ _ _ _ _ _ _ Heq) as (_ & Hdp & _).
    destruct (IH self' Hparse') as [H1 H2].
    { eapply Forall_impl; [exact Hfree|]. simpl. intros c' Hc'. by rewrite Hdp. }
    destruct (run_calls self' calls) as [self2 rs]. cbn [fst snd] in *.
    split; [|done]. constructor; [|done]. eexists. reflexivity.
Qed.

Lemma run_calls_returns_witness :
  let self := RateLimiter_init None false 1 60 in
  let call t := {| call_client := "10.0.0.1"; call_limit := None;
                   call_period := None; call_now := seconds t;
                   call_now_sweep := seconds t |} in
  Forall (fun cr => exists v, snd cr = Ok v)
    (snd (run_calls self [call 120; call 180])) /\
  keys_parse (memory_store (fst (run_calls self [call 120; call 180]))).
Proof.
  cbv zeta. apply run_calls_returns.
  - intros k [].
  - repeat constructor; vm_compute; discriminate.
Defined.

(** X4.  A call made for one client and period never adds a reading to the
    window of another client or period, whatever the identities (colons
    included): the other key's readings are left as they were, or, when
    the sweep ran, are those of them newer than the sweep's cutoff. *)
Theorem call_leaves_other_windows
    (self : RateLimiter) (client_id : string) (limit period now now_sweep : Z)
    (client_id' : string) (period' : Z) :
  (client_id', period') <> (client_id, period) ->
  let self' := fst (_check_memory self client_id limit period now now_sweep) in
  let key' := client_id' +:+ ":" +:+ str period' in
  timestamps_of key' (memory_store self') = timestamps_of key' (memory_store self) \/
  timestamps_of key' (memory_store self') =
    newer_than (now_sweep - seconds period') (timestamps_of key' (memory_store self)).
Proof.
  intros Hne self' key'. subst self'.
  destruct (_check_memory self client_id limit period now now_sweep) as [s r] eqn:Hcall.
  destruct (_check_memory_timestamps self client_id limit period now now_sweep s r
              key' period' (key_period_own client_id' period') Hcall) as [Hts _].
  cbv zeta in Hts. unfold key' in Hts. rewrite key_eqb in Hts.
  destruct (String.eqb client_id client_id' && (period =? period')) eqn:E;
    [|by destruct (float_overflows period)].
  apply andb_true_iff in E as [Ec Ep].
  apply String.eqb_eq in Ec. apply Z.eqb_eq in Ep. congruence.
Qed.

Lemma call_leaves_other_windows_witness :
  let self := set_memory_store (RateLimiter_init None false 1 60)
                [("10.0.0.2:60", [seconds 100])] in
  let self' := fst (_check_memory self "10.0.0.1" 1 60 (seconds 120) (seconds 120)) in
  timestamps_of "10.0.0.2:60" (memory_store self') =
    timestamps_of "10.0.0.2:60" (memory_store self) \/
  timestamps_of "10.0.0.2:60" (memory_store self') =
    newer_than (seconds 120 - seconds 60) (timestamps_of "10.0.0.2:60" (memory_store self)).
Proof.
  cbv zeta.
  apply (call_leaves_other_windows _ "10.0.0.1" 1 60 (seconds 120) (seconds 120)
           "10.0.0.2" 60).
  discriminate.
Defined.

Lemma clean_loop_marked_mono keys now store ktd store' ktd' :
  clean_loop keys now store ktd = (store', Ok ktd') ->
  forall k, In k ktd -> In k ktd'.
Proof.
  revert store ktd. induction keys as [|key rest IH]; intros store ktd.
  - by intros [= <- <-].
  - rewrite clean_loop_cons. destruct (key_period key) as [p|e]; [|done].
    cbv zeta. intros Hloop k Hk. eapply IH; [exact Hloop|].
    destruct (newer_than _ _); [|done]. apply in_app_iff. by left.
Qed.

(** A key the completed loop leaves with no reading was marked for
    deletion. *)
Lemma clean_loop_marks keys now store ktd store' ktd' :
  clean_loop keys now store ktd = (store', Ok ktd') ->
  forall k, In k keys -> timestamps_of k store' = [] -> In k ktd'.
Proof.
  revert store ktd. induction keys as [|key rest IH]; intros store ktd Hloop k Hk Hempty;
    [done|].
  rewrite clean_loop_cons in Hloop. destruct (key_period key) as [p|e]; [|done].
  cbv zeta in Hloop.
  destruct (in_dec string_dec k rest) as [Hr|Hr]; [by eapply IH|].
  destruct Hk as [->|Hk]; [|done].
  pose proof (clean_loop_ok _ _ _ _ _ _ Hloop) as (_ & Hnot & _).
  rewrite (Hnot k Hr), timestamps_of_set_eq in Hempty.
  eapply clean_loop_marked_mono; [exact Hloop|].
  rewrite Hempty. apply in_app_iff. right. by left.
Qed.

Lemma clean_loop_keeps_keys keys now store ktd store' r :
  clean_loop keys now store ktd = (store', r) ->
  forall k, In k (dict_keys store) -> In k (dict_keys store').
Proof.
  revert store ktd. induction keys as [|key rest IH]; intros store ktd.
  - by intros [= <- _].
  - rewrite clean_loop_cons. destruct (key_period key) as [p|e].
    + cbv zeta. intros Hloop k Hk. eapply IH; [exact Hloop|].
      apply dict_keys_set. by right.
    + by intros [= <- _].
Qed.

Lemma dict_keys_del_iff {V : Type} (k k' : string) (d : dict V) :
  In k' (dict_keys (dict_del k d)) <-> In k' (dict_keys d) /\ k' <> k.
Proof.
  unfold dict_keys, dict_del. rewrite !in_map_iff. split.
  - intros (kv & <- & H). apply List.filter_In in H as [H Hb].
    split; [by exists kv|]. intros E. rewrite E, String.eqb_refl in Hb. done.
  - intros [(kv & <- & H) Hne]. exists kv. split; [done|].
    apply List.filter_In. split; [done|].
    destruct (String.eqb k (fst kv)) eqn:E; [|done].
    apply String.eqb_eq in E. congruence.
Qed.

Lemma fold_dict_del_In (ktd : list string) (store : dict (list Z)) k :
  In k (dict_keys (fold_left (fun d key => dict_del key d) ktd store)) <->
  In k (dict_keys store) /\ ~ In k ktd.
Proof.
  revert store. induction ktd as [|k0 ktd IH]; intros store; simpl.
  - tauto.
  - rewrite IH, dict_keys_del_iff. split.
    + intros [[H1 H2] H3]. split; [done|]. intros [->|H]; done.
    + intros [H1 H2]. repeat split; [done | |]; intros H; apply H2; auto.
Qed.

(** X5.  A sweep that completes trims every key of the store to the
    readings newer than the key's own cutoff, [now - period] with the
    period read from the key, and keeps exactly the keys that still hold a
    reading. *)
Theorem sweep_keeps_live_windows (self self' : RateLimiter) (now : Z) (u : unit) :
  _clean_memory_store self now = (self', Ok u) ->
  forall k, In k (dict_keys (memory_store self)) ->
    exists T, key_period k = Ok T /\
      timestamps_of k (memory_store self') =
        newer_than (now - seconds T) (timestamps_of k (memory_store self)) /\
      (In k (dict_keys (memory_store self')) <->
       newer_than (now - seconds T) (timestamps_of k (memory_store self)) <> []).
Proof.
  intros Hclean k Hk.
  destruct (_clean_memory_store_parses _ _ _ _ Hclean k Hk) as [T HT].
  exists T. split; [done|].
  pose proof (_clean_memory_store_ok _ _ _ _ k T Hclean HT) as Hts.
  split; [done|]. rewrite <- Hts.
  revert Hclean Hts. unfold _clean_memory_store.
  destruct (clean_loop _ now (memory_store self) []) as [store [ktd|e]] eqn:E;
    intros [= <- _]; cbn [memory_store set_memory_store].
  rewrite fold_dict_del_timestamps by (by eapply clean_loop_ok).
  intros _. rewrite fold_dict_del_In.
  pose proof (clean_loop_ok _ _ _ _ _ _ E) as (_ & _ & Hdel).
  split.
  - intros [_ Hnot] Hempty. apply Hnot. by eapply clean_loop_marks.
  - intros Hlive. split; [by eapply clean_loop_keeps_keys|].
    intros Hin. apply Hlive. by apply Hdel.
Qed.

Lemma sweep_keeps_live_windows_witness :
  let self := set_memory_store (RateLimiter_init None false 1 60)
                [("10.0.0.1:60", [seconds 100; seconds 170]);
                 ("10.0.0.2:60", [seconds 100])] in
  let self' := fst (_clean_memory_store self (seconds 180)) in
  exists T, key_period "10.0.0.2:60" = Ok T /\
    timestamps_of "10.0.0.2:60" (memory_store self') =
      newer_than (seconds 180 - seconds T)
        (timestamps_of "10.0.0.2:60" (memory_store self)) /\
    (In "10.0.0.2:60" (dict_keys (memory_store self')) <->
     newer_than (seconds 180 - seconds T)
       (timestamps_of "10.0.0.2:60" (memory_store self)) <> []).
Proof.
  cbv zeta.
  apply (sweep_keeps_live_windows _ _ (seconds 180) tt).
  - vm_compute. reflexivity.
  - vm_compute. right. left. reflexivity.
Defined.

Lemma newer_than_none c l :
  Forall (fun ts => ts <= c) l -> newer_than c l = [].
Proof.
  unfold newer_than. induction 1 as [|x l Hx _ IH]; simpl; [done|].
  apply Z.ltb_ge in Hx. by rewrite Hx.
Qed.

(** X6.  The window slides: once every reading recorded for a client is at
    least [period] old, the client's next call is accepted again whenever
    [limit] is positive, and it reports [limit - 1] calls left.  The period
    is one a double holds exactly (at most [2^53] in absolute value), so
    that [now - period] neither raises nor rounds the period. *)
Theorem expired_window_accepts
    (self : RateLimiter) (client_id : string) (limit period now now_sweep : Z) :
  keys_parse (memory_store self) ->
  colon_free client_id ->
  float_exact period ->
  0 < limit ->
  Forall (fun ts => ts <= now - seconds period)
    (timestamps_of (client_id +:+ ":" +:+ str period) (memory_store self)) ->
  exists self' reset_time,
    _check_memory self client_id limit period now now_sweep =
      (self', Ok (true, limit - 1, reset_time)).
Proof.
  intros Hparse Hfree Hexact Hlimit Hold.
  destruct (_check_memory_returns self client_id limit period now now_sweep Hparse Hfree
              (float_exact_no_overflow _ Hexact))
    as (self' & reset_time & Heq & _).
  cbv zeta in Heq. rewrite (newer_than_none _ _ Hold) in Heq.
  assert (Hallowed : (Z.of_nat (length (@nil Z)) <? limit) = true)
    by (apply Z.ltb_lt; simpl; lia).
  rewrite Hallowed in Heq. exists self', reset_time. rewrite Heq.
  repeat f_equal. simpl. lia.
Qed.

Lemma expired_window_accepts_witness :
  let self := set_memory_store (RateLimiter_init None false 1 60)
                [("10.0.0.1:60", [seconds 100])] in
  exists self' reset_time,
    _check_memory self "10.0.0.1" 1 60 (seconds 170) (seconds 170) =
      (self', Ok (true, 1 - 1, reset_time)).
Proof.
  cbv zeta. apply expired_window_accepts.
  - intros k [<-|[]]. by exists 60.
  - reflexivity.
  - vm_compute. discriminate.
  - lia.
  - repeat constructor. vm_compute. discriminate.
Defined.

(** What the [try] block of [_check_redis] returns, from the number of
    members the server counted. *)
Lemma _check_redis_try_verdict db fault client_id limit period now db' allowed remaining rt :
  _check_redis_try db fault client_id limit period now = (db', Ok (allowed, remaining, rt)) ->
  exists request_count,
    0 <= request_count /\
    allowed = (request_count <=? limit) /\
    remaining = Z.max 0 (limit - request_count).
Proof.
  unfold _check_redis_try.
  set (key := "rate_limit:" +:+ client_id +:+ ":" +:+ str period).
  destruct (redis_execute_pipeline db key (now - seconds period) now period)
    as (removed & added & Hexec).
  cbv zeta in Hexec.
  destruct fault as [| |i| | |]; try done;
    (destruct (float_overflows period); [done|]); cbv zeta;
    try (destruct (queue_fails _ _); [done|]); try done;
    rewrite Hexec.
  all: change ([removed; added;
                Z.of_nat (length (zset_insert now
                  (zset_trim (now - seconds period) (zset_of key db)))); 1] !! 2%nat)
         with (Some (Z.of_nat (length (zset_insert now
                  (zset_trim (now - seconds period) (zset_of key db)))))).
  all: cbv iota beta.
  all: try done.
  all: match goal with |- context [0 <? ?x] => destruct (0 <? x) end; try done.
  all: intros [= _ <- <- _]; eexists; (split; [|split; reflexivity]); lia.
Qed.

(** Whatever the backend and whatever goes wrong with the external store,
    a call that returns [allowed = False] reports no call left, and with a
    non-negative limit the number of calls left that a call reports lies
    between 0 and the limit. *)
Lemma check_verdict_bounds
    (self : RateLimiter) (db : Redis) (fault : redis_fault) (client_id : string)
    (limit period : option Z) (now now2 : Z)
    (self' : RateLimiter) (db' : Redis) (allowed : bool) (remaining reset_time : Z) :
  check self db fault client_id limit period now now2 =
    (self', db', Ok (allowed, remaining, reset_time)) ->
  (allowed = false -> remaining = 0) /\
  (0 <= py_or limit (default_limit self) ->
   0 <= remaining <= py_or limit (default_limit self)).
Proof.
  unfold check.
  set (L := py_or limit (default_limit self)).
  set (P := py_or period (default_period self)).
  destruct (redis_client self).
  - unfold _check_redis.
    destruct (_check_redis_try db fault client_id L P now) as [db1 [[[a rem] rt]|e]] eqn:E.
    + intros [= _ _ <- <- _].
      destruct (_check_redis_try_verdict _ _ _ _ _ _ _ _ _ _ E) as (n & Hn & -> & ->).
      split; [|lia]. intros H. apply Z.leb_gt in H. lia.
    + intros [= _ _ <- <- _]. split; [done | lia].
  - destruct (_check_memory self client_id L P now now2) as [s r] eqn:Hcall.
    intros [= _ _ ->].
    pose proof (_check_memory_in_range _ _ _ _ _ _ _ _ Hcall) as Hf.
    destruct (_check_memory_eq self client_id L P now now2 Hf)
      as (store1 & rt & _ & _ & _ & Heq).
    rewrite Heq in Hcall. clear Heq. cbv zeta in Hcall.
    set (kept := newer_than (now - seconds P) _) in Hcall.
    assert (Hgoal : forall a rem,
              a = (Z.of_nat (length kept) <? L) ->
              rem = Z.max 0 (L - Z.of_nat (length (if Z.of_nat (length kept) <? L
                                                   then kept ++ [now] else kept))) ->
              (a = false -> rem = 0) /\ (0 <= L -> 0 <= rem <= L)).
    { intros a rem -> ->. destruct (Z.of_nat (length kept) <? L) eqn:E.
      - split; [done|]. rewrite length_app. simpl. lia.
      - apply Z.ltb_ge in E. split; lia. }
    destruct (sweep_due now).
    + destruct (_clean_memory_store _ now2) as [s0 [u|e]]; [|done].
      injection Hcall as _ <- <- _. by apply Hgoal.
    + injection Hcall as _ <- <- _. by apply Hgoal.
Qed.

(** The whole verdict of a call of [_check_memory] that returns. *)
Lemma _check_memory_verdict self client_id limit period now now_sweep self' r :
  _check_memory self client_id limit period now now_sweep = (self', Ok r) ->
  let key := client_id +:+ ":" +:+ str period in
  let kept := newer_than (now - seconds period) (timestamps_of key (memory_store self)) in
  let allowed := Z.of_nat (length kept) <? limit in
  let recorded := if allowed then kept ++ [now] else kept in
  let remaining := Z.max 0 (limit - Z.of_nat (length recorded)) in
  r = (allowed, remaining,
       if 0 <? remaining then int_time now + period
       else int_time (oldest_or now recorded + seconds period)).
Proof.
  intros Hcall key kept allowed recorded remaining.
  pose proof (_check_memory_in_range _ _ _ _ _ _ _ _ Hcall) as Hf. revert Hcall.
  unfold _check_memory. rewrite Hf. fold key. cbv zeta.
  set (store0 := if dict_mem key (memory_store self) then _ else _).
  assert (H0 : timestamps_of key store0 = timestamps_of key (memory_store self)).
  { subst store0. destruct (dict_mem key (memory_store self)) eqn:E; [done|].
    rewrite timestamps_of_set_eq. unfold timestamps_of, dict_mem in *.
    by destruct (dict_get key (memory_store self)). }
  rewrite !timestamps_of_set_eq, H0. fold kept. fold allowed.
  set (store1 := if allowed then _ else _).
  assert (H1 : timestamps_of key store1 = recorded).
  { subst store1 recorded. destruct allowed; by rewrite ?timestamps_of_set_eq. }
  rewrite H1. fold remaining.
  destruct (sweep_due now).
  - destruct (_clean_memory_store _ now_sweep) as [s [u|e]]; [|done].
    by intros [= _ <-].
  - by intros [= _ <-].
Qed.

Lemma fold_min_In x xs : In (fold_left Z.min xs x) (x :: xs).
Proof.
  revert x. induction xs as [|y xs IH]; intros x; [by left|].
  change (fold_left Z.min (y :: xs) x) with (fold_left Z.min xs (Z.min x y)).
  destruct (IH (Z.min x y)) as [H|H]; [|by right; right].
  rewrite <- H.
  destruct (Z.min_spec x y) as [[_ E]|[_ E]]; rewrite E; [by left | by right; left].
Qed.

Lemma oldest_or_In now l : oldest_or now l = now \/ In (oldest_or now l) l.
Proof.
  destruct l as [|x xs]; [by left|]. right. apply fold_min_In.
Qed.

Lemma newer_than_In c x l : In x (newer_than c l) -> c < x.
Proof.
  unfold newer_than. intros H. apply List.filter_In in H as [_ H].
  by apply Z.ltb_lt.
Qed.

(** X8.  With a non-negative period, the reset time a call of the in-memory
    backend reports is never before the whole second of the call itself. *)
Theorem reset_time_not_in_past
    (self self' : RateLimiter) (client_id : string) (limit period now now_sweep : Z)
    (allowed : bool) (remaining reset_time : Z) :
  0 <= period ->
  _check_memory self client_id limit period now now_sweep =
    (self', Ok (allowed, remaining, reset_time)) ->
  int_time now <= reset_time.
Proof.
  intros Hp Hcall. apply _check_memory_verdict in Hcall. cbv zeta in Hcall.
  injection Hcall as _ _ ->.
  set (kept := newer_than (now - seconds period) _).
  set (recorded := if Z.of_nat (length kept) <? limit then kept ++ [now] else kept).
  pose proof ticks_per_second_pos as Htps.
  assert (Hs : 0 <= seconds period) by (unfold seconds; nia).
  destruct (0 <? _); [lia|].
  unfold int_time. apply Z.quot_le_mono; [done|].
  destruct (oldest_or_In now recorded) as [-> | Hin]; [lia|].
  assert (Hrec : forall x, In x recorded -> now - seconds period < x \/ x = now).
  { intros x Hx. subst recorded.
    destruct (Z.of_nat (length kept) <? limit);
      [apply in_app_iff in Hx as [Hx|[<-|[]]]|]; auto;
      left; by apply newer_than_In in Hx. }
  destruct (Hrec _ Hin) as [H|H]; lia.
Qed.

Lemma reset_time_not_in_past_witness :
  int_time (seconds 101) <= 161.
Proof.
  apply (reset_time_not_in_past (RateLimiter_init None false 1 60)
           (set_memory_store (RateLimiter_init None false 1 60)
              [("10.0.0.1:60", [seconds 101])])
           "10.0.0.1" 1 60 (seconds 101) (seconds 101) true 0 161).
  - lia.
  - vm_compute. reflexivity.
Defined.

(* ===================================================================== *)
(** * Further properties of the external-store limiter *)
(* ===================================================================== *)

(** [_check_redis] when the client library raises nowhere and the period
    is within the doubles. *)
Lemma _check_redis_no_fault db client_id limit period now now_exc :
  float_overflows period = false ->
  let key := "rate_limit:" +:+ client_id +:+ ":" +:+ str period in
  let new := zset_insert now (zset_trim (now - seconds period) (zset_of key db)) in
  let request_count := Z.of_nat (length new) in
  _check_redis db NoFault client_id limit period now now_exc =
    (if period <=? 0
     then {| zsets := delete key (zsets db); ttl := delete key (ttl db) |}
     else {| zsets := <[key := new]> (zsets db); ttl := <[key := period]> (ttl db) |},
     Ok (request_count <=? limit, Z.max 0 (limit - request_count),
         if 0 <? Z.max 0 (limit - request_count) then int_time now + period
         else match (if period <=? 0 then [] else new) with
              | oldest :: _ => int_time oldest + period
              | [] => int_time now + period
              end)).
Proof.
  intros Hf key new request_count.
  unfold _check_redis, _check_redis_try. rewrite Hf. fold key.
  destruct (redis_execute_pipeline db key (now - seconds period) now period)
    as (removed & added & Hexec).
  cbv zeta in Hexec. fold new in Hexec.
  cbn [queue_fails length Nat.ltb Nat.leb]. cbv zeta. rewrite Hexec.
  change ([removed; added; Z.of_nat (length new); 1] !! 2%nat)
    with (Some request_count).
  cbv iota beta.
  destruct (0 <? Z.max 0 (limit - request_count)); [reflexivity|].
  destruct (period <=? 0); by rewrite ?zset_of_delete, ?zset_of_insert.
Qed.

(** [_check_redis] when the period is beyond the doubles: [now - period]
    raises inside the [try] block, and the handler lets the call through. *)
Lemma _check_redis_overflow db fault client_id limit period now now_exc :
  float_overflows period = true ->
  _check_redis db fault client_id limit period now now_exc =
    (db, Ok (true, limit, int_time now_exc + period)).
Proof.
  intros Hf. unfold _check_redis, _check_redis_try. rewrite Hf.
  by destruct fault.
Qed.

Lemma zset_insert_twice score l :
  zset_insert score (zset_insert score l) = zset_insert score l.
Proof.
  induction l as [|x l IH]; simpl.
  - by rewrite Z.ltb_irrefl, Z.eqb_refl.
  - destruct (score <? x) eqn:E1; simpl.
    + by rewrite Z.ltb_irrefl, Z.eqb_refl.
    + destruct (score =? x) eqn:E2; simpl; rewrite E1, E2; [done | by rewrite IH].
Qed.

Lemma zset_insert_Forall (P : Z -> Prop) score l :
  P score -> Forall P l -> Forall P (zset_insert score l).
Proof.
  intros Hs. induction 1 as [|x l Hx Hl IH]; simpl; [by repeat constructor|].
  destruct (score <? x); [by repeat constructor|].
  destruct (score =? x); by constructor.
Qed.

Lemma zset_trim_Forall cutoff l :
  Forall (fun s => negb ((0 <=? s) && (s <=? cutoff)) = true) (zset_trim cutoff l).
Proof.
  unfold zset_trim. induction l as [|x l IH]; simpl; [constructor|].
  destruct (negb _) eqn:E; [by constructor | done].
Qed.

Lemma zset_trim_all cutoff l :
  Forall (fun s => negb ((0 <=? s) && (s <=? cutoff)) = true) l ->
  zset_trim cutoff l = l.
Proof.
  unfold zset_trim. induction 1 as [|x l Hx _ IH]; simpl; [done|].
  by rewrite Hx, IH.
Qed.

(** X9.  On the external store a request is recorded as the member
    [str(now)]: with a positive period, a second call for the same client
    at the same clock reading adds nothing to the sorted set, so it finds
    the same count, returns the same [allowed] and the same number of calls
    left, and leaves the store as the first call left it.  With a period
    within the doubles the whole result is the same, reset time included;
    beyond them both calls raise inside the [try] block and are let
    through, each with the reset time of its own handler. *)
Theorem redis_same_reading_counts_once
    (db db1 : Redis) (client_id : string) (limit period now now1 now2 : Z)
    (r1 : result (bool * Z * Z)) :
  0 < period ->
  _check_redis db NoFault client_id limit period now now1 = (db1, r1) ->
  exists r2,
    _check_redis db1 NoFault client_id limit period now now2 = (db1, r2) /\
    (forall allowed remaining reset_time,
       r1 = Ok (allowed, remaining, reset_time) ->
       exists reset_time', r2 = Ok (allowed, remaining, reset_time')) /\
    (float_overflows period = false -> r2 = r1).
Proof.
  intros Hp. destruct (float_overflows period) eqn:Hf.
  { rewrite !_check_redis_overflow by done. intros [= <- <-].
    eexists. split; [reflexivity|]. split; [|done].
    intros a rem rt [= <- <- _]. eauto. }
  rewrite !_check_redis_no_fault by done. cbv zeta.
  apply Z.leb_gt in Hp. rewrite Hp.
  set (key := "rate_limit:" +:+ client_id +:+ ":" +:+ str period).
  set (new := zset_insert now (zset_trim (now - seconds period) (zset_of key db))).
  intros [= <- <-]. rewrite zset_of_insert.
  assert (Hnew : zset_trim (now - seconds period) new = new).
  { apply zset_trim_all. apply zset_insert_Forall; [|apply zset_trim_Forall].
    apply Z.leb_gt in Hp.
    pose proof ticks_per_second_pos. unfold seconds.
    destruct (0 <=? now) eqn:E1; [|done].
    destruct (now <=? now - period * ticks_per_second) eqn:E2; [|done].
    apply Z.leb_le in E2. nia. }
  assert (Hagain : zset_insert now new = new) by apply zset_insert_twice.
  rewrite Hnew, Hagain. cbn [zsets ttl]. rewrite !insert_insert_eq.
  eexists. split; [reflexivity|]. split; [|done].
  intros a rem rt [= <- <- <-]. eauto.
Qed.

Lemma redis_same_reading_counts_once_witness :
  let db := {| zsets := ∅; ttl := ∅ |} in
  let db1 := fst (_check_redis db NoFault "10.0.0.1" 1 60 (seconds 101) (seconds 101)) in
  exists r2,
    _check_redis db1 NoFault "10.0.0.1" 1 60 (seconds 101) (seconds 102) = (db1, r2) /\
    (forall allowed remaining reset_time,
       Ok (true, 0, 161) = Ok (allowed, remaining, reset_time) ->
       exists reset_time', r2 = Ok (allowed, remaining, reset_time')) /\
    (float_overflows 60 = false -> r2 = Ok (true, 0, 161)).
Proof.
  cbv zeta.
  apply (redis_same_reading_counts_once {| zsets := ∅; ttl := ∅ |} _ "10.0.0.1" 1 60
           (seconds 101) (seconds 101) (seconds 102)).
  - lia.
  - vm_compute. reflexivity.
Defined.

Lemma zset_trim_newer_than cutoff l :
  Forall (fun ts => 0 <= ts) l -> zset_trim cutoff l = newer_than cutoff l.
Proof.
  unfold zset_trim, newer_than. induction 1 as [|x l Hx _ IH]; simpl; [done|].
  rewrite IH. apply Z.leb_le in Hx. rewrite Hx. simpl.
  by rewrite Z.ltb_antisym.
Qed.

Lemma zset_insert_length score l :
  ~ In score l -> length (zset_insert score l) = S (length l).
Proof.
  induction l as [|x l IH]; simpl; [done|]. intros Hnot.
  destruct (score <? x); [done|].
  destruct (score =? x) eqn:E.
  - apply Z.eqb_eq in E. exfalso. apply Hnot. by left.
  - simpl. rewrite IH; [done|]. intros H. apply Hnot. by right.
Qed.

(** X10.  The two backends give the same verdict.  When the in-memory
    store and the external store hold the same readings for a client, none
    negative and none equal to the current clock reading, a call that
    returns on the in-memory backend and the call on the external store
    return the same [allowed] and the same number of calls left. *)
Theorem backends_agree_on_verdict
    (self self' : RateLimiter) (db : Redis) (client_id : string)
    (limit period now now2 : Z) (l : list Z)
    (allowed : bool) (remaining reset_time : Z) :
  timestamps_of (client_id +:+ ":" +:+ str period) (memory_store self) = l ->
  zset_of ("rate_limit:" +:+ client_id +:+ ":" +:+ str period) db = l ->
  Forall (fun ts => 0 <= ts) l ->
  ~ In now l ->
  _check_memory self client_id limit period now now2 =
    (self', Ok (allowed, remaining, reset_time)) ->
  exists db' reset_time',
    _check_redis db NoFault client_id limit period now now2 =
      (db', Ok (allowed, remaining, reset_time')).
Proof.
  intros Hmem Hredis Hpos Hnew Hcall.
  pose proof (_check_memory_in_range _ _ _ _ _ _ _ _ Hcall) as Hf.
  apply _check_memory_verdict in Hcall. cbv zeta in Hcall. rewrite Hmem in Hcall.
  rewrite _check_redis_no_fault by done. cbv zeta. rewrite Hredis.
  rewrite (zset_trim_newer_than _ _ Hpos).
  set (kept := newer_than (now - seconds period) l) in *.
  assert (Hlen : length (zset_insert now kept) = S (length kept)).
  { apply zset_insert_length. intros H. apply Hnew.
    unfold kept, newer_than in H. by apply List.filter_In in H as [H _]. }
  rewrite Hlen. injection Hcall as -> -> _.
  eexists _, _. f_equal. f_equal. f_equal. f_equal.
  - destruct (Z.of_nat (length kept) <? limit) eqn:E1;
      destruct (Z.of_nat (S (length kept)) <=? limit) eqn:E2; try done;
      rewrite ?Z.ltb_lt, ?Z.ltb_ge, ?Z.leb_le, ?Z.leb_gt in *; lia.
  - destruct (Z.of_nat (length kept) <? limit) eqn:E1.
    + rewrite length_app. simpl. lia.
    + apply Z.ltb_ge in E1. lia.
Qed.

Lemma backends_agree_on_verdict_witness :
  let db := {| zsets := {["rate_limit:10.0.0.1:60" := [seconds 100]]}; ttl := ∅ |} in
  exists db' reset_time',
    _check_redis db NoFault "10.0.0.1" 1 60 (seconds 101) (seconds 101) =
      (db', Ok (false, 0, reset_time')).
Proof.
  cbv zeta.
  apply (backends_agree_on_verdict
           (set_memory_store (RateLimiter_init None false 1 60)
              [("10.0.0.1:60", [seconds 100])])
           (set_memory_store (RateLimiter_init None false 1 60)
              [("10.0.0.1:60", [seconds 100])])
           _ "10.0.0.1" 1 60 (seconds 101) (seconds 101) [seconds 100] false 0 160).
  - reflexivity.
  - reflexivity.
  - repeat constructor. vm_compute. discriminate.
  - intros [H|[]]. vm_compute in H. discriminate.
  - vm_compute. reflexivity.
Defined.

(** The server after a call: untouched, or as the pipeline left it. *)
Lemma _check_redis_server db fault client_id limit period now now_exc :
  let key := "rate_limit:" +:+ client_id +:+ ":" +:+ str period in
  let new := zset_insert now (zset_trim (now - seconds period) (zset_of key db)) in
  fst (_check_redis db fault client_id limit period now now_exc) = db \/
  fst (_check_redis db fault client_id limit period now now_exc) =
    (if period <=? 0
     then {| zsets := delete key (zsets db); ttl := delete key (ttl db) |}
     else {| zsets := <[key := new]> (zsets db); ttl := <[key := period]> (ttl db) |}).
Proof.
  intros key new. unfold _check_redis, _check_redis_try. fold key.
  destruct (redis_execute_pipeline db key (now - seconds period) now period)
    as (removed & added & Hexec).
  cbv zeta in Hexec. fold new in Hexec.
  destruct fault as [| |i| | |]; try (by left);
    (destruct (float_overflows period); [by left|]); cbv zeta;
    try (destruct (queue_fails _ _); [by left|]); try (by left);
    rewrite Hexec; try (by right).
  all: change ([removed; added; Z.of_nat (length new); 1] !! 2%nat)
         with (Some (Z.of_nat (length new))); cbv iota beta.
  all: match goal with |- context [0 <? ?x] => destruct (0 <? x) end; by right.
Qed.

(** X17.  On the external store too, a call for one client and period
    leaves the sorted set and the time-to-live of every other client or
    period as they were, whatever the identities and whatever fails in the
    client library. *)
Theorem redis_call_leaves_other_clients
    (db : Redis) (fault : redis_fault) (client_id : string)
    (limit period now now_exc : Z) (client_id' : string) (period' : Z) :
  (client_id', period') <> (client_id, period) ->
  let db' := fst (_check_redis db fault client_id limit period now now_exc) in
  let key' := "rate_limit:" +:+ client_id' +:+ ":" +:+ str period' in
  zsets db' !! key' = zsets db !! key' /\ ttl db' !! key' = ttl db !! key'.
Proof.
  intros Hne db' key'. subst db'.
  assert (Hkey : "rate_limit:" +:+ client_id +:+ ":" +:+ str period <> key').
  { unfold key'. intros H.
    change ("rate_limit:" +:+ client_id +:+ ":" +:+ str period)
      with ("rate_limit:" +:+ (client_id +:+ ":" +:+ str period)) in H.
    change ("rate_limit:" +:+ client_id' +:+ ":" +:+ str period')
      with ("rate_limit:" +:+ (client_id' +:+ ":" +:+ str period')) in H.
    cbn [String.append] in H. injection H as H.
    apply key_inj in H as [-> ->]. by apply Hne. }
  destruct (_check_redis_server db fault client_id limit period now now_exc) as [-> | ->];
    [done|].
  destruct (period <=? 0); cbn [zsets ttl];
    by rewrite ?lookup_insert_ne, ?lookup_delete_ne.
Qed.

Lemma redis_call_leaves_other_clients_witness :
  let db := {| zsets := {["rate_limit:10.0.0.2:60" := [seconds 100]]}; ttl := ∅ |} in
  let db' := fst (_check_redis db NoFault "10.0.0.1" 1 60 (seconds 101) (seconds 101)) in
  zsets db' !! "rate_limit:10.0.0.2:60" = zsets db !! "rate_limit:10.0.0.2:60" /\
  ttl db' !! "rate_limit:10.0.0.2:60" = ttl db !! "rate_limit:10.0.0.2:60".
Proof.
  cbv zeta.
  apply (redis_call_leaves_other_clients _ NoFault "10.0.0.1" 1 60 (seconds 101)
           (seconds 101) "10.0.0.2" 60).
  discriminate.
Defined.

(* ===================================================================== *)
(** * The proxy *)
(* ===================================================================== *)

Lemma get_service_url_no_match routes health path now :
  no_match (normalize_path path) routes ->
  get_service_url routes health path now =
    (Raise (HTTPException 404 ("No service configured for path: " +:+ path)), []).
Proof.
  intros H. unfold get_service_url.
  rewrite <- (app_nil_r routes) at 1. by rewrite get_service_url_loop_skip.
Qed.

Lemma get_service_url_resolved routes before p info after health path now url :
  routes = before ++ (p, info) :: after ->
  no_match (normalize_path path) before ->
  String.prefix p (normalize_path path) = true ->
  info_get "url" info = Some url -> url <> "" ->
  get_service_url routes health path now =
    (Ok url,
     if (seconds 60 <? now - match health !! p with
                               | Some s => last_checked s
                               | None => 0
                               end)
        || negb (match health !! p with Some s => is_healthy s | None => true end)
     then [p] else []).
Proof.
  intros -> Hbefore Hp Hu Hne.
  unfold get_service_url. rewrite get_service_url_loop_skip by done.
  cbn [get_service_url_loop]. rewrite Hp, Hu. destruct url as [|c u]; [done|].
  by destruct (_ || _).
Qed.

Lemma dict_get_app_notin {V : Type} (k : string) (v : V) (d1 d2 : dict V) :
  ~ In k (dict_keys d1) -> dict_get k (d1 ++ (k, v) :: d2) = Some v.
Proof.
  induction d1 as [|[k' v'] d1 IH]; simpl; intros Hnot.
  - by rewrite String.eqb_refl.
  - destruct (String.eqb k k') eqn:E.
    + apply String.eqb_eq in E. exfalso. apply Hnot. by left.
    + apply IH. intros H. apply Hnot. by right.
Qed.

(** The URL probed for a route that has a backend URL. *)
Lemma probed_url_route routes before p info after url :
  routes = before ++ (p, info) :: after ->
  ~ In p (dict_keys before) ->
  info_get "url" info = Some url -> url <> "" ->
  probed_url routes p = Some (url +:+ health_endpoint_of info).
Proof.
  intros -> Hnot Hu Hne. unfold probed_url. rewrite (dict_get_app_notin _ _ _ _ Hnot).
  destruct info as [|kv info]; [done|]. rewrite Hu. by destruct url.
Qed.

(** X11.  A request for a path that is no internal endpoint and that no
    configured route prefix matches is answered 500 with the generic error
    text, not 404: the [HTTPException] that route resolution raises is
    caught by the proxy's own [except Exception].  Nothing is sent to a
    backend and no health check is started. *)
Theorem proxy_unknown_path_answers_500
    (settings : Settings) (service_health : gmap string HealthStatus)
    (inbound : Inbound) (path : string) (http_get : string -> result Z)
    (send : string -> string -> gmap string string -> string -> string -> outbound)
    (now now_report : Z) (background : option Z) :
  dict_get (normalize_path path) INTERNAL_ROUTES = None ->
  no_match (normalize_path path) (SERVICE_ROUTES settings) ->
  proxy_request settings service_health inbound path http_get send now now_report
    background =
    (service_health, [],
     Ok (HttpResponse
           (text_response 500
              "An internal error occurred while processing your request."))).
Proof.
  intros Hint Hno. unfold proxy_request.
  change (if String.prefix "/" path then path else "/" +:+ path)
    with (normalize_path path).
  cbv zeta. rewrite Hint. rewrite (get_service_url_no_match _ _ _ _ Hno).
  by destruct background.
Qed.

Lemma proxy_unknown_path_answers_500_witness :
  let settings :=
    {| ENABLE_RATE_LIMITING := true; RATE_LIMIT_REDIS_URL := None;
       DEFAULT_RATE_LIMIT := 100; DEFAULT_RATE_LIMIT_PERIOD := 60;
       PROXY_SECRET_KEY := "dev_secret_key";
       SERVICE_ROUTES :=
         [("/auth", [("url", Some "http://auth-service:8000");
                     ("health", Some "/health")])] |} in
  let inbound :=
    {| inbound_request := {| headers := ∅; client := Some "10.0.0.1" |};
       inbound_method := "GET"; inbound_body := Some ""; inbound_query := "" |} in
  proxy_request settings ∅ inbound "unknown/path"
    (fun _ => Ok 200) (fun _ _ _ _ _ => TimeoutException "") (seconds 100) (seconds 100)
    (Some (seconds 101)) =
    (∅, [],
     Ok (HttpResponse
           (text_response 500
              "An internal error occurred while processing your request."))).
Proof.
  cbv zeta. apply proxy_unknown_path_answers_500.
  - reflexivity.
  - repeat constructor.
Defined.

(** X12.  When the first route matching the path has no backend URL, the
    proxy answers 503 with the text naming the route, and sends nothing to
    a backend. *)
Theorem proxy_missing_url_answers_503
    (settings : Settings) (service_health : gmap string HealthStatus)
    (inbound : Inbound) (path : string) (http_get : string -> result Z)
    (send : string -> string -> gmap string string -> string -> string -> outbound)
    (now now_report : Z) (background : option Z)
    (before after : dict service_info) (route_prefix : string) (info : service_info) :
  dict_get (normalize_path path) INTERNAL_ROUTES = None ->
  SERVICE_ROUTES settings = before ++ (route_prefix, info) :: after ->
  no_match (normalize_path path) before ->
  String.prefix route_prefix (normalize_path path) = true ->
  has_backend_url info = false ->
  proxy_request settings service_health inbound path http_get send now now_report
    background =
    (service_health, [],
     Ok (HttpResponse
           (text_response 503
              ("Service configuration for " +:+ route_prefix +:+ " is missing")))).
Proof.
  intros Hint Hroutes Hbefore Hp Hurl. unfold proxy_request.
  change (if String.prefix "/" path then path else "/" +:+ path)
    with (normalize_path path).
  cbv zeta. rewrite Hint, Hroutes.
  unfold get_service_url. rewrite get_service_url_loop_skip by done.
  cbn [get_service_url_loop]. rewrite Hp.
  unfold has_backend_url, truthy in Hurl.
  destruct (info_get "url" info) as [[|c u]|]; try done; by destruct background.
Qed.

Lemma proxy_missing_url_answers_503_witness :
  let settings :=
    {| ENABLE_RATE_LIMITING := true; RATE_LIMIT_REDIS_URL := None;
       DEFAULT_RATE_LIMIT := 100; DEFAULT_RATE_LIMIT_PERIOD := 60;
       PROXY_SECRET_KEY := "dev_secret_key";
       SERVICE_ROUTES := [("/map", [("health", Some "/health")])] |} in
  let inbound :=
    {| inbound_request := {| headers := ∅; client := Some "10.0.0.1" |};
       inbound_method := "GET"; inbound_body := Some ""; inbound_query := "" |} in
  proxy_request settings ∅ inbound "map/tiles"
    (fun _ => Ok 200) (fun _ _ _ _ _ => TimeoutException "") (seconds 100) (seconds 100)
    (Some (seconds 101)) =
    (∅, [],
     Ok (HttpResponse
           (text_response 503 ("Service configuration for " +:+ "/map" +:+ " is missing")))).
Proof.
  cbv zeta.
  apply (proxy_missing_url_answers_503 _ _ _ _ _ _ _ _ _ [] [] "/map"
           [("health", Some "/health")]).
  - reflexivity.
  - reflexivity.
  - constructor.
  - reflexivity.
  - reflexivity.
Defined.

(** X13.  A request whose path is no internal endpoint and whose first
    matching route has a backend URL is sent once, with the method, body
    and query string of the request and the headers of [preserve_headers],
    to the backend URL followed by ["/"] and the path as given.  The
    backend's response is relayed with its status, headers and content; a
    timeout is answered 504, any other request error 502 with the text of
    the error, and any other exception 500.  Route resolution starts at
    most one health check in the background, for the matched route.  When
    it started none, or the one it started has not written its result by
    the time the proxy returns, the health map is as it was; when that
    check has written its result, at the clock reading [t], the map holds
    the outcome of its probe for the route and is otherwise as it was. *)
Theorem proxy_forwards_to_first_match
    (settings : Settings) (service_health : gmap string HealthStatus)
    (inbound : Inbound) (path : string) (http_get : string -> result Z)
    (send : string -> string -> gmap string string -> string -> string -> outbound)
    (now now_report : Z) (background : option Z)
    (before after : dict service_info) (route_prefix : string) (info : service_info)
    (url body : string) :
  dict_get (normalize_path path) INTERNAL_ROUTES = None ->
  SERVICE_ROUTES settings = before ++ (route_prefix, info) :: after ->
  ~ In route_prefix (dict_keys before) ->
  no_match (normalize_path path) before ->
  String.prefix route_prefix (normalize_path path) = true ->
  info_get "url" info = Some url -> url <> "" ->
  inbound_body inbound = Some body ->
  let tasks := snd (get_service_url (SERVICE_ROUTES settings) service_health path now) in
  let response :=
    match send (inbound_method inbound) (url +:+ "/" +:+ path)
            (preserve_headers settings (inbound_request inbound)) body
            (inbound_query inbound) with
    | BackendResponse response => response
    | TimeoutException _ =>
        text_response 504 "Service timeout. Please try again later."
    | RequestError msg =>
        text_response 502 ("Unable to reach the service: " +:+ msg)
    | OtherException _ =>
        text_response 500
          "An internal error occurred while processing your request."
    end in
  (tasks = [] \/ tasks = [route_prefix]) /\
  proxy_request settings service_health inbound path http_get send now now_report
    background =
    (match background, tasks with
     | Some t, _ :: _ =>
         <[route_prefix :=
             probe_entry (http_get (url +:+ health_endpoint_of info)) t]> service_health
     | _, _ => service_health
     end,
     tasks, Ok (HttpResponse response)).
Proof.
  intros Hint Hroutes Hnot Hbefore Hp Hu Hne Hbody tasks response.
  subst tasks response. unfold proxy_request.
  change (if String.prefix "/" path then path else "/" +:+ path)
    with (normalize_path path).
  cbv zeta. rewrite Hint.
  rewrite (get_service_url_resolved _ _ _ _ _ _ _ _ _ Hroutes Hbefore Hp Hu Hne).
  cbn [snd]. rewrite Hbody.
  pose proof (probed_url_route _ _ _ _ _ _ Hroutes Hnot Hu Hne) as Hprobed.
  assert (Hrun : forall tasks,
            tasks = [] \/ tasks = [route_prefix] ->
            run_background (SERVICE_ROUTES settings) service_health tasks http_get
              background =
            match background, tasks with
            | Some t, _ :: _ =>
                <[route_prefix :=
                    probe_entry (http_get (url +:+ health_endpoint_of info)) t]>
                  service_health
            | _, _ => service_health
            end).
  { intros tasks [-> | ->]; unfold run_background; destruct background as [t|];
      try done.
    cbn [fold_left]. by rewrite (check_service_health_probed _ _ _ _ _ _ Hprobed). }
  destruct (_ || _).
  - split; [by right|]. rewrite (Hrun [route_prefix]) by (by right).
    destruct (send _ _ _ _ _) as [[st hs c]| | |]; reflexivity.
  - split; [by left|]. rewrite (Hrun []) by (by left).
    destruct (send _ _ _ _ _) as [[st hs c]| | |]; reflexivity.
Qed.

Lemma proxy_forwards_to_first_match_witness :
  let settings :=
    {| ENABLE_RATE_LIMITING := true; RATE_LIMIT_REDIS_URL := None;
       DEFAULT_RATE_LIMIT := 100; DEFAULT_RATE_LIMIT_PERIOD := 60;
       PROXY_SECRET_KEY := "dev_secret_key";
       SERVICE_ROUTES :=
         [("/auth", [("url", Some "http://auth-service:8000");
                     ("health", Some "/health")])] |} in
  let inbound :=
    {| inbound_request := {| headers := ∅; client := Some "10.0.0.1" |};
       inbound_method := "GET"; inbound_body := Some ""; inbound_query := "" |} in
  let tasks := snd (get_service_url (SERVICE_ROUTES settings) ∅ "auth/login" (seconds 100)) in
  (tasks = [] \/ tasks = ["/auth"]) /\
  proxy_request settings ∅ inbound "auth/login"
    (fun _ => Ok 503) (fun _ _ _ _ _ => RequestError "connection refused")
    (seconds 100) (seconds 100) (Some (seconds 101)) =
    (match Some (seconds 101), tasks with
     | Some t, _ :: _ =>
         <["/auth" := probe_entry (Ok 503) t]> (∅ : gmap string HealthStatus)
     | _, _ => ∅
     end,
     tasks,
     Ok (HttpResponse
           (text_response 502 ("Unable to reach the service: " +:+ "connection refused")))).
Proof.
  cbv zeta.
  apply (proxy_forwards_to_first_match _ _ _ _ (fun _ => Ok 503)
           (fun _ _ _ _ _ => RequestError "connection refused") _ _ _ [] []
           "/auth" [("url", Some "http://auth-service:8000"); ("health", Some "/health")]
           "http://auth-service:8000" "").
  - reflexivity.
  - reflexivity.
  - intros [].
  - constructor.
  - reflexivity.
  - reflexivity.
  - discriminate.
  - reflexivity.
Defined.

Lemma service_health_check_returns routes health http_get now now_report :
  exists reports,
    service_health_check routes health http_get now now_report =
      (record_probes routes http_get now (dict_keys routes) health, Ok reports).
Proof.
  unfold service_health_check.
  destruct (gather_health_checks_spec routes (dict_keys routes) health http_get now)
    as (results & -> & _).
  eexists. reflexivity.
Qed.

(** X14.  The three internal paths, [/health], [/routes] and
    [/services/health], given with or without their leading slash, are
    served by the gateway itself whatever the route table holds, even a
    route whose prefix matches them: the proxy returns the endpoint's JSON
    object, never a response of its own or of a backend, sends nothing to a
    backend, and starts no background health check.  Only
    [/services/health] touches the health map. *)
Theorem internal_paths_served_by_gateway
    (settings : Settings) (service_health : gmap string HealthStatus)
    (inbound : Inbound) (path : string) (http_get : string -> result Z)
    (send : string -> string -> gmap string string -> string -> string -> outbound)
    (now now_report : Z) (background : option Z) :
  In (normalize_path path) (dict_keys INTERNAL_ROUTES) ->
  exists service_health' p,
    proxy_request settings service_health inbound path http_get send now now_report
      background = (service_health', [], Ok p) /\
    (forall r, p <> HttpResponse r) /\
    (forall send',
       proxy_request settings service_health inbound path http_get send' now now_report
         background = (service_health', [], Ok p)) /\
    (normalize_path path <> "/services/health" -> service_health' = service_health) /\
    (normalize_path path = "/health" -> p = GatewayHealth) /\
    (normalize_path path = "/routes" -> p = list_routes (SERVICE_ROUTES settings)).
Proof.
  intros Hin. unfold proxy_request.
  change (if String.prefix "/" path then path else "/" +:+ path)
    with (normalize_path path).
  cbv zeta.
  destruct Hin as [<-|[<-|[<-|[]]]].
  - change (dict_get "/health" INTERNAL_ROUTES) with (Some "health_check").
    change (globals_get "health_check") with (Some health_check_handler).
    exists service_health, GatewayHealth. by repeat split.
  - change (dict_get "/routes" INTERNAL_ROUTES) with (Some "list_routes").
    change (globals_get "list_routes") with (Some list_routes_handler).
    exists service_health, (list_routes (SERVICE_ROUTES settings)). by repeat split.
  - change (dict_get "/services/health" INTERNAL_ROUTES)
      with (Some "service_health_check").
    change (globals_get "service_health_check") with (Some service_health_check_handler).
    destruct (service_health_check_returns (SERVICE_ROUTES settings) service_health
                http_get now now_report) as [reports ->].
    eexists _, (ServicesHealth reports). by repeat split.
Qed.

Lemma internal_paths_served_by_gateway_witness :
  let settings :=
    {| ENABLE_RATE_LIMITING := true; RATE_LIMIT_REDIS_URL := None;
       DEFAULT_RATE_LIMIT := 100; DEFAULT_RATE_LIMIT_PERIOD := 60;
       PROXY_SECRET_KEY := "dev_secret_key";
       SERVICE_ROUTES :=
         [("/", [("url", Some "http://web:8000"); ("health", Some "/health")])] |} in
  let inbound :=
    {| inbound_request := {| headers := ∅; client := Some "10.0.0.1" |};
       inbound_method := "POST"; inbound_body := Some ""; inbound_query := "" |} in
  exists service_health' p,
    proxy_request settings ∅ inbound "health" (fun _ => Ok 200)
      (fun _ _ _ _ _ => TimeoutException "") (seconds 100) (seconds 100)
      (Some (seconds 101)) =
      (service_health', [], Ok p) /\
    (forall r, p <> HttpResponse r) /\
    (forall send',
       proxy_request settings ∅ inbound "health" (fun _ => Ok 200) send'
         (seconds 100) (seconds 100) (Some (seconds 101)) =
         (service_health', [], Ok p)) /\
    (normalize_path "health" <> "/services/health" -> service_health' = ∅) /\
    (normalize_path "health" = "/health" -> p = GatewayHealth) /\
    (normalize_path "health" = "/routes" -> p = list_routes (SERVICE_ROUTES settings)).
Proof.
  cbv zeta. apply internal_paths_served_by_gateway.
  left. reflexivity.
Defined.

(** X15.  How a probe steers later requests.  After a probe of a route at
    time [t0], a request resolved to that route starts no new health check
    in the background as long as the probe answered 200 and is at most
    60 s old; after a probe that answered another status or raised, every
    request resolved to the route starts one, however recent the probe.
    The request is routed to the backend either way. *)
Theorem probe_steers_background_checks
    (routes before after : dict service_info) (route_prefix : string)
    (info : service_info) (url : string)
    (service_health : gmap string HealthStatus) (http_get : string -> result Z)
    (path : string) (t0 now : Z) :
  routes = before ++ (route_prefix, info) :: after ->
  ~ In route_prefix (dict_keys before) ->
  no_match (normalize_path path) before ->
  String.prefix route_prefix (normalize_path path) = true ->
  info_get "url" info = Some url -> url <> "" ->
  let healthy :=
    match http_get (url +:+ health_endpoint_of info) with
    | Ok status => status =? 200
    | Raise _ => false
    end in
  let service_health' :=
    fst (check_service_health routes service_health route_prefix http_get t0) in
  get_service_url routes service_health' path now =
    (Ok url, if healthy && (now - t0 <=? seconds 60) then [] else [route_prefix]).
Proof.
  intros Hroutes Hnot Hbefore Hp Hu Hne healthy service_health'.
  assert (Hprobed : probed_url routes route_prefix =
                    Some (url +:+ health_endpoint_of info)).
  { unfold probed_url. rewrite Hroutes, (dict_get_app_notin _ _ _ _ Hnot).
    destruct info as [|kv info]; [done|]. rewrite Hu. by destruct url. }
  subst service_health'.
  rewrite (check_service_health_probed _ _ _ _ _ _ Hprobed). cbn [fst].
  rewrite (get_service_url_resolved _ _ _ _ _ _ _ _ _ Hroutes Hbefore Hp Hu Hne).
  rewrite lookup_insert_eq. f_equal. subst healthy.
  destruct (http_get _) as [status|e]; cbn [probe_entry is_healthy last_checked].
  - destruct (status =? 200); cbn [negb andb orb].
    + rewrite orb_false_r.
      destruct (seconds 60 <? now - t0) eqn:E1; destruct (now - t0 <=? seconds 60) eqn:E2;
        try done; rewrite ?Z.ltb_lt, ?Z.ltb_ge, ?Z.leb_le, ?Z.leb_gt in *; lia.
    + by rewrite orb_true_r.
  - by rewrite orb_true_r.
Qed.

Lemma probe_steers_background_checks_witness :
  let routes :=
    [("/auth", [("url", Some "http://auth-service:8000"); ("health", Some "/health")])] in
  let service_health' :=
    fst (check_service_health routes ∅ "/auth" (fun _ => Ok 503) (seconds 100)) in
  get_service_url routes service_health' "auth/login" (seconds 101) =
    (Ok "http://auth-service:8000",
     if false && (seconds 101 - seconds 100 <=? seconds 60) then [] else ["/auth"]).
Proof.
  cbv zeta.
  apply (probe_steers_background_checks _ [] [] "/auth"
           [("url", Some "http://auth-service:8000"); ("health", Some "/health")]
           "http://auth-service:8000" ∅ (fun _ => Ok 503) "auth/login"
           (seconds 100) (seconds 101)).
  - reflexivity.
  - intros [].
  - constructor.
  - reflexivity.
  - reflexivity.
  - discriminate.
Defined.

Lemma fold_probe_lookup_unprobed routes paths health http_get now p :
  probed_url routes p = None ->
  record_probes routes http_get now paths health !! p = health !! p.
Proof.
  intros Hp. unfold record_probes.
  revert health. induction paths as [|q paths IH]; intros health; simpl; [done|].
  rewrite IH. destruct (probed_url routes q) eqn:E; [|done].
  apply lookup_insert_ne. intros ->. congruence.
Qed.

Lemma dict_mem_notin {V : Type} (k : string) (d : dict V) :
  ~ In k (dict_keys d) -> dict_mem k d = false.
Proof.
  intros Hnot. unfold dict_mem. destruct (dict_get k d) eqn:E; [|done].
  exfalso. apply Hnot. by eapply dict_get_In.
Qed.

Lemma health_results_fold_keys items health now (acc : dict HealthReport) :
  List.NoDup (dict_keys acc ++ map (fun it => fst (fst it)) items) ->
  dict_keys
    (fold_left
       (fun acc item =>
          let '(service_path, service_info, r) := item in
          dict_set service_path (report_of health now service_path service_info r) acc)
       items acc) = dict_keys acc ++ map (fun it => fst (fst it)) items.
Proof.
  revert acc. induction items as [|[[q info] r] items IH]; intros acc Hnd.
  - simpl. by rewrite app_nil_r.
  - cbn [fold_left map fst]. cbn [map fst] in Hnd.
    assert (Hq : ~ In q (dict_keys acc)).
    { intros H. apply NoDup_remove_2 in Hnd. apply Hnd. apply in_app_iff. by left. }
    assert (Hkeys : dict_keys (dict_set q (report_of health now q info r) acc) =
                    dict_keys acc ++ [q])
      by (apply dict_keys_set_new; by apply dict_mem_notin).
    rewrite IH; rewrite Hkeys, <- app_assoc; [done|].
    exact Hnd.
Qed.

(** X16.  [GET /services/health] never raises and reports exactly one entry
    per configured route, in configuration order.  A route without a
    backend URL is not probed: it is reported as unhealthy, with the time
    and the error text of its entry in the health map or, when it has
    none, with the time of the report and no error text. *)
Theorem services_health_lists_every_route
    (routes : dict service_info) (service_health : gmap string HealthStatus)
    (http_get : string -> result Z) (now now_report : Z) :
  List.NoDup (dict_keys routes) ->
  exists reports,
    service_health_check routes service_health http_get now now_report =
      (record_probes routes http_get now (dict_keys routes) service_health,
       Ok reports) /\
    dict_keys reports = dict_keys routes /\
    (forall p info,
       dict_get p routes = Some info -> has_backend_url info = false ->
       dict_get p reports =
         Some {| report_url := info_get "url" info;
                 report_is_healthy := false;
                 report_last_checked :=
                   match service_health !! p with
                   | Some s => last_checked s
                   | None => now_report
                   end;
                 report_error :=
                   match service_health !! p with
                   | Some s => error s
                   | None => None
                   end |}).
Proof.
  intros Hnd. unfold service_health_check.
  destruct (gather_health_checks_spec routes (dict_keys routes) service_health
              http_get now) as (results & -> & ->).
  eexists. split; [reflexivity|]. rewrite combine_results.
  assert (Hkeys : map (fun it : string * service_info * bool => fst (fst it))
                    (map (fun kv : string * service_info =>
                            (kv, match probed_url routes (fst kv) with
                                 | Some url => is_healthy (probe_entry (http_get url) now)
                                 | None => false
                                 end)) routes) = dict_keys routes).
  { rewrite map_map. reflexivity. }
  split.
  - unfold health_results. rewrite health_results_fold_keys; simpl; by rewrite Hkeys.
  - intros p info Hget Hurl.
    assert (Hprobed : probed_url routes p = None).
    { unfold probed_url. rewrite Hget. destruct info as [|kv info]; [done|].
      unfold has_backend_url, truthy in Hurl.
      by destruct (info_get "url" (kv :: info)) as [[|c u]|]. }
    rewrite (dict_get_health_results _ _ _ p info false).
    + unfold report_of. by rewrite (fold_probe_lookup_unprobed _ _ _ _ _ _ Hprobed).
    + by rewrite Hkeys.
    + apply in_map_iff. exists (p, info). cbn [fst]. rewrite Hprobed.
      split; [reflexivity|]. by apply dict_get_Some_In.
Qed.

Lemma services_health_lists_every_route_witness :
  let routes :=
    [("/auth", [("url", Some "http://auth-service:8000"); ("health", Some "/health")]);
     ("/map", [("health", Some "/health")])] in
  exists reports,
    service_health_check routes ∅ (fun _ => Ok 200) (seconds 100) (seconds 101) =
      (record_probes routes (fun _ => Ok 200) (seconds 100) (dict_keys routes) ∅,
       Ok reports) /\
    dict_keys reports = dict_keys routes /\
    (forall p info,
       dict_get p routes = Some info -> has_backend_url info = false ->
       dict_get p reports =
         Some {| report_url := info_get "url" info;
                 report_is_healthy := false;
                 report_last_checked :=
                   match (∅ : gmap string HealthStatus) !! p with
                   | Some s => last_checked s
                   | None => seconds 101
                   end;
                 report_error :=
                   match (∅ : gmap string HealthStatus) !! p with
                   | Some s => error s
                   | None => None
                   end |}).
Proof.
  cbv zeta. apply services_health_lists_every_route.
  repeat constructor; simpl; intuition discriminate.
Defined.

(* ===================================================================== *)
(** * The headers of the rate-limiting middleware *)
(* ===================================================================== *)

(** X7.  With rate limiting enabled, the middleware answers by the verdict
    of the limiter's [check] for the client, on either backend and whatever
    goes wrong with the external store.  When [check] returns
    [allowed = False] the request does not reach the application: the
    response is a 429 with the fixed text, [X-RateLimit-Remaining: 0] and
    the reset time.  When it returns [allowed = True] the response is the
    application's, with its status and content, and the two headers set to
    the calls left and the reset time.  With a non-negative default limit
    the number of calls left lies between 0 and that limit. *)
Theorem rate_limit_headers
    (settings : Settings) (limiter limiter' : RateLimiter) (db db' : Redis)
    (fault : redis_fault) (request : Request) (call_next : Request -> Response)
    (now now2 : Z) (allowed : bool) (remaining reset_time : Z) :
  ENABLE_RATE_LIMITING settings = true ->
  check limiter db fault (_get_client_id request) None None now now2 =
    (limiter', db', Ok (allowed, remaining, reset_time)) ->
  let response :=
    if allowed
    then set_header "X-RateLimit-Reset" (str reset_time)
           (set_header "X-RateLimit-Remaining" (str remaining) (call_next request))
    else {| status_code := 429;
            response_headers :=
              [("X-RateLimit-Remaining", "0"); ("X-RateLimit-Reset", str reset_time)];
            content := "Rate limit exceeded. Please try again later." |} in
  dispatch settings limiter db fault request call_next now now2 =
    (limiter', db', Ok response) /\
  dict_get "X-RateLimit-Remaining" (response_headers response) = Some (str remaining) /\
  dict_get "X-RateLimit-Reset" (response_headers response) = Some (str reset_time) /\
  status_code response = (if allowed then status_code (call_next request) else 429) /\
  content response =
    (if allowed then content (call_next request)
     else "Rate limit exceeded. Please try again later.") /\
  (allowed = false -> remaining = 0) /\
  (0 <= default_limit limiter -> 0 <= remaining <= default_limit limiter).
Proof.
  intros Hen Hcheck response. subst response.
  destruct (check_verdict_bounds _ _ _ _ _ _ _ _ _ _ _ _ _ Hcheck) as [Hzero Hbounds].
  cbn [py_or] in Hbounds.
  unfold dispatch. rewrite Hen, Hcheck. cbn [negb].
  destruct allowed; cbn [negb].
  - cbn [set_header response_headers status_code content].
    split; [done|]. split; [|split; [|done]].
    + rewrite dict_get_set_ne by done. apply dict_get_set_eq.
    + apply dict_get_set_eq.
  - rewrite (Hzero eq_refl) in *. split; [done|]. split; [done|]. done.
Qed.

Lemma rate_limit_headers_witness :
  let settings :=
    {| ENABLE_RATE_LIMITING := true; RATE_LIMIT_REDIS_URL := None;
       DEFAULT_RATE_LIMIT := 1; DEFAULT_RATE_LIMIT_PERIOD := 60;
       PROXY_SECRET_KEY := "dev_secret_key"; SERVICE_ROUTES := [] |} in
  let limiter := set_memory_store (RateLimiter_init None false 1 60)
                   [("10.0.0.1:60", [seconds 101])] in
  let db := {| zsets := ∅; ttl := ∅ |} in
  let request := {| headers := ∅; client := Some "10.0.0.1" |} in
  let call_next := fun _ : Request =>
    {| status_code := 200; response_headers := []; content := "ok" |} in
  let response :=
    {| status_code := 429;
       response_headers := [("X-RateLimit-Remaining", "0"); ("X-RateLimit-Reset", str 161)];
       content := "Rate limit exceeded. Please try again later." |} in
  dispatch settings limiter db NoFault request call_next (seconds 102) (seconds 102) =
    (limiter, db, Ok response) /\
  dict_get "X-RateLimit-Remaining" (response_headers response) = Some (str 0) /\
  dict_get "X-RateLimit-Reset" (response_headers response) = Some (str 161) /\
  status_code response = 429 /\
  content response = "Rate limit exceeded. Please try again later." /\
  (false = false -> 0 = 0) /\
  (0 <= default_limit limiter -> 0 <= 0 <= default_limit limiter).
Proof.
  cbv zeta.
  apply (rate_limit_headers
           {| ENABLE_RATE_LIMITING := true; RATE_LIMIT_REDIS_URL := None;
              DEFAULT_RATE_LIMIT := 1; DEFAULT_RATE_LIMIT_PERIOD := 60;
              PROXY_SECRET_KEY := "dev_secret_key"; SERVICE_ROUTES := [] |}
           (set_memory_store (RateLimiter_init None false 1 60)
              [("10.0.0.1:60", [seconds 101])])
           (set_memory_store (RateLimiter_init None false 1 60)
              [("10.0.0.1:60", [seconds 101])])
           {| zsets := ∅; ttl := ∅ |} {| zsets := ∅; ttl := ∅ |} NoFault
           {| headers := ∅; client := Some "10.0.0.1" |}
           (fun _ => {| status_code := 200; response_headers := []; content := "ok" |})
           (seconds 102) (seconds 102) false 0 161).
  - reflexivity.
  - vm_compute. reflexivity.
Defined.
